(** * FittingPLDF: the planet-radius/period distribution function and its fit

    A shallow embedding of the notebook [FittingPLDF.ipynb]: the log-spaced
    integration grid, the shape function [g], its normalisation [function_Cn],
    the expected number of detections [function_Nexp], the likelihood, prior
    and posterior, and the per-mass-bin driver that seeds the generator,
    initialises the walkers, draws the reliability subsamples and runs the
    sampler once per draw.

    Numbers are real numbers: a float64 is read as the real it stands for, so
    [np.log], [np.exp], [np.tanh] and [**] are [ln], [exp], [tanh] and
    [Rpower].  The reading is exact where the numpy operation stays finite
    (positive arguments of logarithms and power bases, non-zero divisors);
    statements that depend on this carry the hypotheses that keep the
    evaluation there.  Arrays are lists, two-dimensional arrays lists of rows,
    and the numpy operators act element by element. *)

From Stdlib Require Import Reals Lra Lia List ZArith Bool Arith.
Import ListNotations.
Local Open Scope R_scope.

(** ** numpy over the reals *)

Module Np.

Abbreviation array1 := (list R) (only parsing).
Abbreviation array2 := (list (list R)) (only parsing).

(** [a < b] and [a <= b] on floats, as Python booleans. *)
Definition lt (a b : R) : bool := if Rlt_dec a b then true else false.
Definition le (a b : R) : bool := if Rle_dec a b then true else false.
Definition ge (a b : R) : bool := if Rge_dec a b then true else false.

(** [np.where(c, a, b)] at one element. *)
Definition where_ (c : bool) (a b : R) : R := if c then a else b.

Definition log10 (v : R) : R := ln v / ln 10.

(** Element-wise binary operators on arrays of the same shape. *)
Fixpoint zipWith {A B C : Type} (f : A -> B -> C) (l : list A) (m : list B) : list C :=
  match l, m with
  | a :: l', b :: m' => f a b :: zipWith f l' m'
  | _, _ => []
  end.

Definition mul1 (a b : array1) : array1 := zipWith Rmult a b.
Definition mul2 (a b : array2) : array2 := zipWith mul1 a b.
(** scalar * array *)
Definition smul1 (c : R) (a : array1) : array1 := map (Rmult c) a.
Definition smul2 (c : R) (a : array2) : array2 := map (smul1 c) a.

(** The shape [(rows, cols)] and the element [a[j][i]]. *)
Definition shape2 (a : array2) (rows cols : nat) : Prop :=
  length a = rows /\ Forall (fun row => length row = cols) a.
Definition item2 (a : array2) (j i : nat) : R := nth i (nth j a []) 0.

(** [np.sum]: the sum of all the elements. *)
Definition sum (a : array1) : R := fold_right Rplus 0 a.
Definition sum2 (a : array2) : R := sum (map sum a).

(** [np.linspace(a, b, num)]: [a + i * step], [step = (b - a) / (num - 1)]. *)
Definition linspace (a b : R) (num : nat) : array1 :=
  map (fun i => a + INR i * ((b - a) / (INR num - 1))) (seq 0 num).

(** [np.logspace(a, b, num)]: [10 ** linspace(a, b, num)]. *)
Definition logspace (a b : R) (num : nat) : array1 :=
  map (Rpower 10) (linspace a b num).

(** [result[0] = v] and [result[-1] = v] on a non-empty array. *)
Definition set_first (a : array1) (v : R) : array1 :=
  match a with [] => [] | _ :: t => v :: t end.
Definition set_last (a : array1) (v : R) : array1 :=
  match a with [] => [] | _ => removelast a ++ [v] end.

(** [np.geomspace(start, stop, num)] for positive [start], [stop]: the
    logspace between the decimal logarithms, with the two end points then
    overwritten by [start] and [stop] themselves. *)
Definition geomspace (start stop : R) (num : nat) : array1 :=
  let result := logspace (log10 start) (log10 stop) num in
  let result := if (0 <? num)%nat then set_first result start else result in
  if (1 <? num)%nat then set_last result stop else result.

(** [np.meshgrid(x, y)]: both of shape [(len y, len x)]. *)
Definition meshgrid (xs ys : array1) : array2 * array2 :=
  (map (fun _ => xs) ys, map (fun yj => map (fun _ => yj) xs) ys).

(** [a[mask]] for a boolean mask. *)
Fixpoint select (a : array1) (mask : list bool) : array1 :=
  match a, mask with
  | v :: a', b :: mask' => if b then v :: select a' mask' else select a' mask'
  | _, _ => []
  end.

End Np.

Import Np.

(** ** Python evaluation: exceptions and the log of calls *)

Inductive exn : Type := AssertionError | IndexError | ValueError.

(** The functions of the notebook whose calls are logged. *)
Inductive fname : Type :=
  f_log_prior | f_lnL | f_function_Npl | f_function_Nexp | f_function_Cn | f_g.

(** A computation yields the calls it made, in order, and an exception or a
    value. *)
Definition Py (A : Type) : Type := list fname * (exn + A).

Definition ret {A : Type} (a : A) : Py A := ([], inr a).
Definition raise {A : Type} (e : exn) : Py A := ([], inl e).
Definition bind {A B : Type} (m : Py A) (k : A -> Py B) : Py B :=
  match m with
  | (t, inl e) => (t, inl e)
  | (t, inr a) => let (t', r) := k a in (t ++ t', r)
  end.
(** Entering function [f], whose body is [m]. *)
Definition enter {A : Type} (f : fname) (m : Py A) : Py A :=
  let (t, r) := m in (f :: t, r).
(** A call of [f] whose body is the pure expression [v]. *)
Definition traced {A : Type} (f : fname) (v : A) : Py A := enter f (ret v).

Definition calls {A : Type} (m : Py A) : list fname := fst m.
Definition outcome {A : Type} (m : Py A) : exn + A := snd m.

Declare Scope py_scope.
Delimit Scope py_scope with py.
Notation "v <- m ;; k" := (bind m (fun v => k))
  (at level 61, m at next level, right associativity) : py_scope.
Local Open Scope py_scope.

(** [a[k]] with Python's negative indices. *)
Definition getitem (a : array1) (k : Z) : Py R :=
  let n := Z.of_nat (length a) in
  let k' := if (k <? 0)%Z then (k + n)%Z else k in
  if ((0 <=? k') && (k' <? n))%Z
  then match nth_error a (Z.to_nat k') with
       | Some v => ret v
       | None => raise IndexError
       end
  else raise IndexError.

(** ** The domain and the integration grid *)

Definition GetRange : R * R * R * R :=
  let '(Pmin, Pmax) := (2, 100) in
  let '(Rmin, Rmax) := (1.0, 3.5) in
  (Pmin, Pmax, Rmin, Rmax).

Record grid : Type := Grid {
  grid_P : array2;
  grid_R : array2;
  grid_dP : array2;
  grid_dR : array2;
  grid_x : array1;
  grid_y : array1
}.

Definition log_grid (nx ny : nat) : Py grid :=
  let '(Pmin, Pmax, Rmin, Rmax) := GetRange in
  let xs := geomspace Pmin Pmax nx in
  let ys := geomspace Rmin Rmax ny in
  let '(P, Rp) := meshgrid xs ys in
  x_last <- getitem xs (Z.of_nat nx - 1) ;;
  x_0 <- getitem xs 0 ;;
  let logspace_x := exp ((ln x_last - ln x_0) / (INR nx - 1)) in
  y_last <- getitem ys (Z.of_nat ny - 1) ;;
  y_0 <- getitem ys 0 ;;
  let logspace_y := exp ((ln y_last - ln y_0) / (INR ny - 1)) in
  let '(dP, dR) := (map (map (fun p => p * (logspace_x - 1))) P,
                    map (map (fun r => r * (logspace_y - 1))) Rp) in
  ret (Grid P Rp dP dR xs ys).

(** The module-level bindings [Pmin,Pmax,Rmin,Rmax = GetRange()] and
    [intP,intR,dP,dR,x,y = log_grid()], the latter with the default
    resolution [nx = ny = 100]. *)
Definition Pmin : R := fst (fst (fst GetRange)).
Definition Pmax : R := snd (fst (fst GetRange)).
Definition Rmin : R := snd (fst GetRange).
Definition Rmax : R := snd GetRange.

Definition empty_grid : grid := Grid [] [] [] [] [] [].
Definition the_grid : grid :=
  match outcome (log_grid 100 100) with
  | inr G => G
  | inl _ => empty_grid
  end.
Definition intP : array2 := grid_P the_grid.
Definition intR : array2 := grid_R the_grid.
Definition dP : array2 := grid_dP the_grid.
Definition dR : array2 := grid_dR the_grid.
Definition x : array1 := grid_x the_grid.
Definition y : array1 := grid_y the_grid.

(** The two ratios [logspace_x], [logspace_y] computed for the default grid. *)
Definition logspace_x : R := exp ((ln Pmax - ln Pmin) / (INR 100 - 1)).
Definition logspace_y : R := exp ((ln Rmax - ln Rmin) / (INR 100 - 1)).

(** ** The radius valley scaled by stellar mass *)

Definition ScaledRadius (Rp M : R) (inverse : bool) : R :=
  let power := 1 / 4 in
  let power := if inverse then - power else power in
  let Rprime := Rp * Rpower M power in
  Rprime.

(** ** The shape function *)

Record fparam : Type := Fparam {
  F0 : R;
  P_break : R;
  beta_1 : R;
  beta_2 : R;
  P_central : R;
  chi_1 : R;
  chi_2 : R;
  s : R
}.

(** The local variables of [g] at one point [(P, Rp)]; [Rsplit] is the
    module-level variable, rebound for each mass bin. *)
Definition occ_SEMN (P : R) (th : fparam) : R :=
  Rpower (P / P_break th) (where_ (lt P (P_break th)) (beta_1 th) (beta_2 th)).

Definition sx (P : R) (th : fparam) : R :=
  0.5 + 0.5 * tanh ((log10 P - log10 (P_central th)) / log10 (s th)).

Definition X (P : R) (th : fparam) : R :=
  chi_1 th * (1 - sx P th) + sx P th * chi_2 th.

Definition g2 (Rsplit : R) (P : R) (th : fparam) : R :=
  let '(a, b, c) := (ln Rmin, ln Rsplit, ln Rmax) in
  X P th * (c - b) / ((b - a) + X P th * (c - b) - X P th * (b - a)).

Definition g (Rsplit : R) (P Rp : R) (th : fparam) : R :=
  let g_split := where_ (lt Rp Rsplit) (g2 Rsplit P th) (1 - g2 Rsplit P th) in
  g_split / Rp * occ_SEMN P th.

(** [g] applied to arrays of periods and radii of the same shape. *)
Definition g_1d (Rsplit : R) (P Rp : array1) (th : fparam) : array1 :=
  zipWith (fun p r => g Rsplit p r th) P Rp.
Definition g_2d (Rsplit : R) (P Rp : array2) (th : fparam) : array2 :=
  zipWith (fun ps rs => g_1d Rsplit ps rs th) P Rp.

Definition function_Cn (Rsplit : R) (th : fparam) : R :=
  let Cn := 1 / sum2 (mul2 (mul2 (g_2d Rsplit intP intR th) dP) dR) in
  Cn.

Definition df (Rsplit : R) (P Rp : array2) (th : fparam) : array2 :=
  let F0 := F0 th in
  let Cn := function_Cn Rsplit th in
  smul2 (F0 * Cn) (g_2d Rsplit P Rp th).

(** ** The expected number of detections *)

Definition function_Nexp (Rsplit : R) (OneRunCompletenessGrid : array2) (th : fparam) : R :=
  let F0 := F0 th in
  let Cn := function_Cn Rsplit th in
  let integrand :=
    mul2 (mul2 (mul2 OneRunCompletenessGrid (g_2d Rsplit intP intR th)) dP) dR in
  let integral :=
    sum2 (mul2 (mul2 (mul2 OneRunCompletenessGrid (g_2d Rsplit intP intR th)) dP) dR) in
  let Nexp := F0 * Cn * integral in
  Nexp.

(** [SummedEtaInterp(x, y)]: an interpolant evaluated on the grid
    coordinates, of shape [(len y, len x)]. *)
Definition interp_on (f : R -> R -> R) (xs ys : array1) : array2 :=
  map (fun yj => map (fun xi => f xi yj) xs) ys.

(** ** Likelihood, prior and posterior *)

Definition function_Npl (P Rp : array1) : Py nat :=
  enter f_function_Npl
    (if Nat.eqb (length P) (length Rp)
     then (let Npl := length P in ret Npl)
     else raise AssertionError).

Definition lnL (Rsplit : R) (OneRunCompletenessGrid : array2)
    (th : fparam) (P Rp : array1) : Py R :=
  enter f_lnL
    (Npl <- function_Npl P Rp ;;
     Nexp <- traced f_function_Nexp (function_Nexp Rsplit OneRunCompletenessGrid th) ;;
     let F0 := F0 th in
     Cn <- traced f_function_Cn (function_Cn Rsplit th) ;;
     gs <- traced f_g (g_1d Rsplit P Rp th) ;;
     let g_term := sum (map ln gs) in
     ret (- Nexp + INR Npl * ln F0 + INR Npl * ln Cn + g_term)).

(** The likelihood as the specification writes it, for a sample of [N_pl]
    pairs [(P_i, R_i)]. *)
Definition lnL_formula (Rsplit : R) (OneRunCompletenessGrid : array2)
    (th : fparam) (P Rp : array1) : R :=
  let N_pl := length P in
  - function_Nexp Rsplit OneRunCompletenessGrid th
  + INR N_pl * ln (F0 th)
  + INR N_pl * ln (function_Cn Rsplit th)
  + sum (map (fun i => ln (g Rsplit (nth i P 0) (nth i Rp 0) th)) (seq 0 N_pl)).

(** A log-probability: a finite float or [-np.inf]. *)
Inductive logp : Type := Finite (v : R) | NegInf.

Definition isfinite (l : logp) : bool :=
  match l with Finite _ => true | NegInf => false end.

(** [lp + v] for a float [v]. *)
Definition logp_add (lp : logp) (v : R) : logp :=
  match lp with Finite u => Finite (u + v) | NegInf => NegInf end.

Definition log_prior (th : fparam) : logp :=
  let '(F0, P_break, beta_1, beta_2, P_cent, chi_1, chi_2, s) :=
    (F0 th, P_break th, beta_1 th, beta_2 th, P_central th, chi_1 th, chi_2 th, s th) in
  if (lt 0.05 F0 && lt F0 5) &&
     (lt 2 P_break && lt P_break 20) &&
     (lt (-2) beta_1 && lt beta_1 5) &&
     (lt (-2) beta_2 && lt beta_2 5) &&
     (lt 4 P_cent && lt P_cent 50) &&
     lt (1 - chi_1) chi_1 &&
     (lt 0 chi_1 && lt chi_1 1) &&
     (lt 0 chi_2 && lt chi_2 0.5) &&
     (lt 1 s && lt s 5) &&
     le (log10 (2 * Pmin)) (log10 P_cent - log10 s) &&
     ge (log10 (0.5 * Pmax)) (log10 P_cent + log10 s)
  then Finite 0.0
  else NegInf.

(** The support of the prior as the specification words it. *)
Definition prior_support (th : fparam) : Prop :=
  0.05 < F0 th < 5 /\
  2 < P_break th < 20 /\
  -2 < beta_1 th < 5 /\
  -2 < beta_2 th < 5 /\
  4 < P_central th < 50 /\
  (0 < chi_1 th < 1 /\ chi_1 th > 1 - chi_1 th) /\
  0 < chi_2 th < 0.5 /\
  1 < s th < 5 /\
  log10 (2 * Pmin) <= log10 (P_central th) - log10 (s th) /\
  log10 (0.5 * Pmax) >= log10 (P_central th) + log10 (s th).

(** The interior point of the specification's test, and a vector with its
    [F0] replaced. *)
Definition interior_point : fparam := Fparam 1 10 1 (-1) 20 0.8 0.2 2.
Definition with_F0 (v : R) (th : fparam) : fparam :=
  Fparam v (P_break th) (beta_1 th) (beta_2 th) (P_central th)
         (chi_1 th) (chi_2 th) (s th).

(** Two completeness grids on the integration grid: 1 everywhere, and 1 below
    a radius of 2 and 0 from there on. *)
Definition uniform_completeness : array2 := interp_on (fun _ _ => 1) x y.
Definition small_planet_completeness : array2 :=
  interp_on (fun _ r => if lt r 2 then 1 else 0) x y.

(** A vector outside the prior: both mixture ratios are -0.001. *)
Definition negative_chi_point : fparam :=
  Fparam 1 10 1 (-1) 20 (-0.001) (-0.001) 2.

(** At [negative_chi_point], with the valley at 2: the split fraction, the
    factor of a cell of the integrand that depends on the radius alone,
    without and with [small_planet_completeness], and the factor that
    depends on the period alone. *)
Definition gamma : R := g2 2 0 negative_chi_point.
Definition radius_factor (yj : R) : R :=
  where_ (lt yj 2) gamma (1 - gamma) * (logspace_y - 1).
Definition observed_radius_factor (yj : R) : R :=
  (if lt yj 2 then 1 else 0) * radius_factor yj.
Definition period_factor (xi : R) : R :=
  occ_SEMN xi negative_chi_point * (xi * (logspace_x - 1)).

Definition log_posterior (Rsplit : R) (OneRunCompletenessGrid : array2)
    (th : fparam) (P Rp : array1) : Py logp :=
  lp <- traced f_log_prior (log_prior th) ;;
  if negb (isfinite lp)
  then ret NegInf
  else (l <- lnL Rsplit OneRunCompletenessGrid th P Rp ;; ret (logp_add lp l)).

(** ** The driver of one mass bin *)

(** numpy's global generator, the one [np.random.seed], [np.random.randn] and
    [np.random.choice] all read and advance: [seed n] is the state that
    [np.random.seed(n)] installs, whatever the state was before.  The
    completeness tool and the table readers that the notebook calls between
    the walkers and the reliability draws are inputs of a bin here: they are
    taken to leave this generator alone. *)
Record Generator : Type := {
  gen_state : Type;
  seed : Z -> gen_state;
  randn : nat -> nat -> gen_state -> array2 * gen_state;
  choice : list bool -> nat -> list R -> gen_state -> list bool * gen_state
}.

(** The ensemble sampler.  [run_mcmc] is handed the array [pos] itself, so it
    answers with the contents of that array after the call, next to its
    result and its own source of randomness (the sampler owns a generator
    that is not the global one). *)
Record Emcee : Type := {
  chain : Type;
  entropy : Type;
  run_mcmc : array2 -> Z -> array1 -> array1 -> entropy ->
             (exn + chain) * array2 * entropy
}.

(** The sampler does not write into the array it is started from (emcee
    copies its initial state). *)
Definition keeps_initial_state (E : Emcee) : Prop :=
  forall (p : array2) (k : Z) (P Rp : array1) (e : entropy E),
    snd (fst (run_mcmc E p k P Rp e)) = p.

Definition nstep : Z := 10000.
Definition nwalk : nat := 16.

(** One row of the catalogue of a bin after the cuts: period, updated radius
    and reliability ([Kepler_P], [Kepler_R] and [sample_reliability] are its
    three columns). *)
Record planet : Type := Planet {
  koi_period : R;
  updated_radius : R;
  totalReliability : R
}.

(** One call [sampler.run_mcmc(pos, nstep)] with [args=(P, R)]. *)
Record sampler_call : Type := SamplerCall {
  call_pos : array2;
  call_nstep : Z;
  call_P : array1;
  call_R : array1
}.

(** [use_array[:,draw]]; an array built from no row is one-dimensional. *)
Fixpoint column_of (rows : list (list bool)) (k : nat) : option (list bool) :=
  match rows with
  | [] => Some []
  | row :: rows' =>
      match nth_error row k, column_of rows' k with
      | Some b, Some bs => Some (b :: bs)
      | _, _ => None
      end
  end.
Definition column (use_array : list (list bool)) (k : nat) : exn + list bool :=
  match use_array with
  | [] => inl IndexError
  | _ => match column_of use_array k with
         | Some bs => inr bs
         | None => inl IndexError
         end
  end.

Section Driver.

Variable G : Generator.
Variable E : Emcee.

(** The variables a draw reads and writes. *)
Record bin_state : Type := BinState {
  pos : array2;
  sampler_entropy : entropy E;
  tracker : list (nat * nat);
  chains : list (chain E);
  runs : list sampler_call
}.

(** [np.random.seed(42)], then
    [pos = initial + 1e-4 * np.random.randn(nwalk, len(initial))]. *)
Definition init_walkers (initial : list R) (st : gen_state G)
    : array2 * gen_state G :=
  let st := seed G 42 in
  let (noise, st) := randn G nwalk (length initial) st in
  (map (fun row => zipWith (fun a e => a + 1e-4 * e) initial row) noise, st).

(** [use_array]: one [np.random.choice] of [num_draws] booleans per planet. *)
Fixpoint draw_use_array (num_draws : nat) (rels : list R) (st : gen_state G)
    : list (list bool) * gen_state G :=
  match rels with
  | [] => ([], st)
  | rel :: rels' =>
      let (row, st) := choice G [true; false] num_draws [rel; 1 - rel] st in
      let (rows, st) := draw_use_array num_draws rels' st in
      (row :: rows, st)
  end.

(** The body of [for draw in range(num_draws)]; [Some e] when it raised. *)
Definition draw_body (Kepler_P Kepler_R : array1) (use_array : list (list bool))
    (draw : nat) (b : bin_state) : bin_state * option exn :=
  match column use_array draw with
  | inl e => (b, Some e)
  | inr mask =>
      let this_Kepler_P := select Kepler_P mask in
      let this_Kepler_R := select Kepler_R mask in
      let tracker' := tracker b ++ [(draw, length this_Kepler_P)] in
      let this_run := SamplerCall (pos b) nstep this_Kepler_P this_Kepler_R in
      let '(r, pos', ent') :=
        run_mcmc E (pos b) nstep this_Kepler_P this_Kepler_R (sampler_entropy b) in
      match r with
      | inl e =>
          (BinState pos' ent' tracker' (chains b) (runs b ++ [this_run]), Some e)
      | inr c =>
          (BinState pos' ent' tracker' (chains b ++ [c]) (runs b ++ [this_run]), None)
      end
  end.

Fixpoint draw_loop (Kepler_P Kepler_R : array1) (use_array : list (list bool))
    (draws : list nat) (b : bin_state) : bin_state * option exn :=
  match draws with
  | [] => (b, None)
  | draw :: draws' =>
      match draw_body Kepler_P Kepler_R use_array draw b with
      | (b', None) => draw_loop Kepler_P Kepler_R use_array draws' b'
      | (b', Some e) => (b', Some e)
      end
  end.

(** What one pass of [for this_row in range(len(t))] leaves behind. *)
Record bin_result : Type := BinResult {
  initial_pos : array2;
  use_array : list (list bool);
  final : bin_state;
  raised : option exn;
  np_random : gen_state G
}.

(** One mass bin: the walkers, the reliability draws, the sampler runs.  The
    number of draws (100 in the notebook), the initial guess and the
    catalogue of the bin are the inputs. *)
Definition run_bin (num_draws : nat) (initial : list R) (koi : list planet)
    (st : gen_state G) (ent : entropy E) : bin_result :=
  let (pos0, st) := init_walkers initial st in
  let Kepler_P := map koi_period koi in
  let Kepler_R := map updated_radius koi in
  let sample_reliability := map totalReliability koi in
  let (use, st) := draw_use_array num_draws sample_reliability st in
  let (b, e) :=
    draw_loop Kepler_P Kepler_R use (seq 0 num_draws) (BinState pos0 ent [] [] []) in
  BinResult pos0 use b e st.

End Driver.

(** A generator and a sampler to run the driver on: a counter whose draws are
    read off its value, and a sampler that returns its initial ensemble as
    the chain and leaves the array as it was. *)
Definition counter_generator : Generator :=
  {| gen_state := Z;
     seed := fun n => n;
     randn := fun rows cols st =>
       (map (fun i => map (fun k => IZR (st + Z.of_nat i + Z.of_nat k)) (seq 0 cols))
            (seq 0 rows), (st + 1)%Z);
     choice := fun options size p st =>
       (map (fun k => Z.even (st + Z.of_nat k)) (seq 0 size), (st + 1)%Z) |}.

Definition copying_sampler : Emcee :=
  {| chain := array2;
     entropy := unit;
     run_mcmc := fun p _ _ _ e => (inr p, p, e) |}.

(** ** The catalogue cuts of a bin *)

(** [a > b] and [a != b] on floats. *)
Definition float_gt (a b : R) : bool := if Rgt_dec a b then true else false.
Definition float_ne (a b : R) : bool := if Req_dec_T a b then false else true.

(** A row of the stellar table. *)
Record star : Type := Star {
  KIC : Z;
  Mass : R;
  Teff : R;
  logg : R;
  Rad : R
}.

(** A row of the table of mass bins. *)
Record mass_row : Type := MassRow {
  Lo : R;
  Hi : R
}.

(** The dwarf cut:
    [logg > 1./4.671 * arctan((Teff-6300.)/-67.172) + 3.876]. *)
Definition isdwarf (st : star) : bool :=
  float_gt (logg st) (1 / 4.671 * atan ((Teff st - 6300) / (- 67.172)) + 3.876).

(** [kg = kg[isdwarf]]. *)
Definition dwarf_cut (stars : list star) : list star := filter isdwarf stars.

Definition get_mass_range (stars : list star) (row : mass_row) : list star :=
  let inBin st :=
    ge (Mass st) (Lo row) && lt (Mass st) (Hi row) && isdwarf st in
  filter inBin stars.

(** Limiting the sample to the period and radius range, then dropping the
    rows of zero reliability; indexing with [np.where(mask)] keeps the
    elements where the mask holds. *)
Definition limit_sample (Kepler_P Kepler_R sample_reliability : array1)
    : array1 * array1 * array1 :=
  let inRange :=
    zipWith (fun p r => lt Pmin p && float_gt Pmax p && lt Rmin r && float_gt Rmax r)
            Kepler_P Kepler_R in
  let Kepler_P := select Kepler_P inRange in
  let Kepler_R := select Kepler_R inRange in
  let sample_reliability := select sample_reliability inRange in
  let isnonzeroReliability := map (fun rel => float_ne rel 0) sample_reliability in
  let Kepler_P := select Kepler_P isnonzeroReliability in
  let Kepler_R := select Kepler_R isnonzeroReliability in
  let sample_reliability := select sample_reliability isnonzeroReliability in
  (Kepler_P, Kepler_R, sample_reliability).

(** The row test of the two cuts together. *)
Definition kept (row : R * R * R) : bool :=
  let '(p, r, rel) := row in
  (lt Pmin p && float_gt Pmax p && lt Rmin r && float_gt Rmax r) && float_ne rel 0.

(** Three columns as rows. *)
Fixpoint rows_of (P Rp rel : array1) : list (R * R * R) :=
  match P, Rp, rel with
  | p :: P', r :: Rp', e :: rel' => (p, r, e) :: rows_of P' Rp' rel'
  | _, _, _ => []
  end.

(** ** The planets no draw uses *)

(** [np.all(use_array[i,:]==False)]. *)
Definition never_used (row : list bool) : bool :=
  forallb (fun b => Bool.eqb b false) row.

(** [np.where([np.all(use_array[i,:]==False) for i in range(...)])[0]], and
    the empty list when no row is all false. *)
Definition unused_indices (use_array : list (list bool)) : list nat :=
  map fst (filter (fun ir => never_used (snd ir))
                  (combine (seq 0 (length use_array)) use_array)).

(** A generator whose [np.random.choice] answers with [size] outcomes. *)
Definition choice_has_size (G : Generator) : Prop :=
  forall (options : list bool) (size : nat) (p : list R) (st : gen_state G),
    length (fst (choice G options size p st)) = size.

(** A sampler that never raises. *)
Definition never_raises (E : Emcee) : Prop :=
  forall (p : array2) (k : Z) (P Rp : array1) (e : entropy E),
    exists c : chain E, fst (fst (run_mcmc E p k P Rp e)) = inr c.

(** What the tracker and the recorded runs satisfy between two draws of a
    bin whose periods are [Kepler_P]. *)
Definition well_tracked (E : Emcee) (Kepler_P : array1) (b : bin_state E) : Prop :=
  map snd (tracker E b) = map (fun c => length (call_P c)) (runs E b) /\
  Forall (fun c => length (call_P c) = length (call_R c) /\
                   (length (call_P c) <= length Kepler_P)%nat /\
                   call_nstep c = nstep) (runs E b).

(** * Properties *)

(** ** Comparisons *)

Lemma lt_true (a b : R) : lt a b = true <-> a < b.
Proof. unfold lt. destruct (Rlt_dec a b); split; intros; try discriminate; tauto. Qed.

Lemma lt_false (a b : R) : lt a b = false <-> ~ a < b.
Proof. unfold lt. destruct (Rlt_dec a b); split; intros; try discriminate; tauto. Qed.

Lemma le_true (a b : R) : le a b = true <-> a <= b.
Proof. unfold le. destruct (Rle_dec a b); split; intros; try discriminate; tauto. Qed.

Lemma ge_true (a b : R) : ge a b = true <-> a >= b.
Proof. unfold ge. destruct (Rge_dec a b); split; intros; try discriminate; tauto. Qed.

(** ** Lists as arrays *)

Lemma zipWith_length {A B C : Type} (f : A -> B -> C) (l : list A) (m : list B) :
  length (zipWith f l m) = Nat.min (length l) (length m).
Proof.
  revert m; induction l as [|a l IH]; intros [|b m]; simpl; auto.
Qed.

Lemma zipWith_map {A B C D : Type} (f : A -> B -> C) (u : D -> A) (v : D -> B)
    (l : list D) :
  zipWith f (map u l) (map v l) = map (fun d => f (u d) (v d)) l.
Proof. induction l as [|d l IH]; simpl; congruence. Qed.

Lemma sum_app (a b : array1) : sum (a ++ b) = sum a + sum b.
Proof. induction a as [|v a IH]; simpl; [ring | rewrite IH; ring]. Qed.

Lemma sum_smul1 (c : R) (a : array1) : sum (smul1 c a) = c * sum a.
Proof. induction a as [|v a IH]; simpl; [ring | rewrite IH; ring]. Qed.

Lemma sum2_smul2 (c : R) (a : array2) : sum2 (smul2 c a) = c * sum2 a.
Proof.
  unfold sum2, smul2.
  induction a as [|row a IH]; simpl; [ring|].
  rewrite IH, sum_smul1; ring.
Qed.

Lemma mul1_smul1 (c : R) (a b : array1) : mul1 (smul1 c a) b = smul1 c (mul1 a b).
Proof.
  unfold mul1, smul1.
  revert b; induction a as [|v a IH]; intros [|w b]; simpl; auto.
  rewrite IH. f_equal. ring.
Qed.

Lemma mul2_smul2 (c : R) (a b : array2) : mul2 (smul2 c a) b = smul2 c (mul2 a b).
Proof.
  unfold mul2, smul2.
  revert b; induction a as [|r a IH]; intros [|q b]; simpl; auto.
  rewrite IH, mul1_smul1. reflexivity.
Qed.

(** ** The log-spaced grid *)

Lemma length_linspace (a b : R) (n : nat) : length (linspace a b n) = n.
Proof. unfold linspace. now rewrite length_map, length_seq. Qed.

Lemma length_logspace (a b : R) (n : nat) : length (logspace a b n) = n.
Proof. unfold logspace. now rewrite length_map, length_linspace. Qed.

Lemma length_set_first (a : array1) (v : R) : length (set_first a v) = length a.
Proof. destruct a; reflexivity. Qed.

Lemma length_set_last (a : array1) (v : R) : length (set_last a v) = length a.
Proof.
  destruct a as [|w a]; [reflexivity|].
  unfold set_last. rewrite removelast_firstn_len, length_app, length_firstn.
  simpl. lia.
Qed.

Lemma length_geomspace (a b : R) (n : nat) : length (geomspace a b n) = n.
Proof.
  unfold geomspace.
  destruct (0 <? n)%nat, (1 <? n)%nat;
    rewrite ?length_set_last, ?length_set_first; apply length_logspace.
Qed.

Lemma nth_map_seq {A : Type} (f : nat -> A) (n i : nat) (d : A) :
  (i < n)%nat -> nth i (map f (seq 0 n)) d = f i.
Proof.
  intros Hi.
  rewrite (nth_indep _ d (f 0%nat)) by (rewrite length_map, length_seq; lia).
  rewrite (map_nth f (seq 0 n) 0%nat i).
  now rewrite seq_nth.
Qed.

Lemma nth_logspace (a b : R) (n i : nat) :
  (i < n)%nat ->
  nth i (logspace a b n) 0 = Rpower 10 (a + INR i * ((b - a) / (INR n - 1))).
Proof.
  intros Hi. unfold logspace, linspace.
  rewrite map_map. now rewrite nth_map_seq.
Qed.

Lemma nth_set_first (a : array1) (v : R) (i : nat) :
  nth i (set_first a v) 0 = if Nat.eqb i 0 then (if Nat.eqb (length a) 0 then 0 else v) else nth i a 0.
Proof. destruct a, i; reflexivity. Qed.

Lemma nth_set_last (a : array1) (v : R) (i : nat) :
  (i < length a)%nat ->
  nth i (set_last a v) 0 = if Nat.eqb i (length a - 1) then v else nth i a 0.
Proof.
  intros Hi. destruct a as [|w a]; [simpl in Hi; lia|].
  unfold set_last. rewrite removelast_firstn_len.
  set (l := w :: a) in *.
  assert (Hl : length (firstn (Nat.pred (length l)) l) = (length l - 1)%nat)
    by (rewrite length_firstn; lia).
  destruct (Nat.eqb_spec i (length l - 1)) as [->|Hne].
  - rewrite app_nth2 by lia. rewrite Hl, Nat.sub_diag. reflexivity.
  - rewrite app_nth1 by lia. rewrite nth_firstn.
    destruct (Nat.ltb_spec i (Nat.pred (length l))); [reflexivity | lia].
Qed.

Lemma Pmin_val : Pmin = 2.
Proof. reflexivity. Qed.
Lemma Pmax_val : Pmax = 100.
Proof. reflexivity. Qed.
Lemma Rmin_val : Rmin = 1.
Proof. unfold Rmin, GetRange; simpl; lra. Qed.
Lemma Rmax_val : Rmax = 3.5.
Proof. reflexivity. Qed.

Lemma GetRange_val : GetRange = (Pmin, Pmax, Rmin, Rmax).
Proof. reflexivity. Qed.

Lemma ln_10_pos : 0 < ln 10.
Proof. rewrite <- ln_1. apply ln_increasing; lra. Qed.

Lemma ln_quot (a b : R) : 0 < a -> 0 < b -> ln (b / a) = ln b - ln a.
Proof.
  intros Ha Hb. unfold Rdiv.
  rewrite ln_mult by auto using Rinv_0_lt_compat.
  rewrite ln_Rinv by assumption. ring.
Qed.

Lemma Rpower_10_spacing (a b t : R) :
  0 < a -> 0 < b ->
  Rpower 10 (log10 a + t * (log10 b - log10 a)) = a * Rpower (b / a) t.
Proof.
  intros Ha Hb. unfold Rpower, log10.
  rewrite ln_quot by assumption.
  transitivity (exp (ln a) * exp (t * (ln b - ln a))).
  - rewrite <- exp_plus. f_equal.
    pose proof ln_10_pos. field. lra.
  - now rewrite exp_ln.
Qed.

Lemma nth_geomspace (a b : R) (n i : nat) :
  0 < a -> 0 < b -> (2 <= n)%nat -> (i < n)%nat ->
  nth i (geomspace a b n) 0 = a * Rpower (b / a) (INR i / (INR n - 1)).
Proof.
  intros Ha Hb Hn Hi.
  assert (Hq : 0 < b / a) by (apply Rdiv_lt_0_compat; assumption).
  assert (Hn1 : INR n - 1 = INR (n - 1)) by (rewrite minus_INR by lia; reflexivity).
  assert (Hpos : 0 < INR n - 1)
    by (rewrite Hn1; apply lt_0_INR; lia).
  unfold geomspace.
  destruct (Nat.ltb_spec 0 n); [|lia].
  destruct (Nat.ltb_spec 1 n); [|lia].
  rewrite nth_set_last by (now rewrite length_set_first, length_logspace).
  rewrite length_set_first, length_logspace.
  destruct (Nat.eqb_spec i (n - 1)) as [->|Hlast].
  - rewrite <- Hn1. unfold Rdiv at 2. rewrite Rinv_r by lra.
    rewrite Rpower_1 by assumption. field. lra.
  - rewrite nth_set_first, length_logspace.
    destruct (Nat.eqb_spec i 0) as [->|Hfirst].
    + destruct (Nat.eqb_spec n 0); [lia|].
      simpl INR. unfold Rdiv at 2. rewrite Rmult_0_l, Rpower_O by assumption. ring.
    + rewrite nth_logspace by assumption.
      rewrite <- Rpower_10_spacing by assumption.
      f_equal. field. lra.
Qed.

Lemma geomspace_first (a b : R) (n : nat) :
  0 < a -> 0 < b -> (2 <= n)%nat -> nth 0 (geomspace a b n) 0 = a.
Proof.
  intros Ha Hb Hn. rewrite nth_geomspace by (auto; lia).
  simpl INR. unfold Rdiv at 2. rewrite Rmult_0_l, Rpower_O; [ring|].
  apply Rdiv_lt_0_compat; assumption.
Qed.

Lemma geomspace_last (a b : R) (n : nat) :
  0 < a -> 0 < b -> (2 <= n)%nat -> nth (n - 1) (geomspace a b n) 0 = b.
Proof.
  intros Ha Hb Hn. rewrite nth_geomspace by (auto; lia).
  rewrite minus_INR by lia. simpl INR.
  assert (0 < INR n - 1) by (replace 1 with (INR 1) by reflexivity;
    rewrite <- minus_INR by lia; apply lt_0_INR; lia).
  unfold Rdiv at 2. rewrite Rinv_r by lra.
  rewrite Rpower_1 by (apply Rdiv_lt_0_compat; assumption). field. lra.
Qed.

Lemma getitem_nth (a : array1) (k : nat) :
  (k < length a)%nat -> getitem a (Z.of_nat k) = ret (nth k a 0).
Proof.
  intros Hk. unfold getitem.
  destruct (Z.ltb_spec (Z.of_nat k) 0); [lia|].
  destruct (Z.leb_spec 0 (Z.of_nat k)); [|lia].
  destruct (Z.ltb_spec (Z.of_nat k) (Z.of_nat (length a))); [|lia].
  simpl. rewrite Nat2Z.id.
  destruct (nth_error a k) eqn:E.
  - now rewrite (nth_error_nth _ _ _ E).
  - apply nth_error_None in E. lia.
Qed.

Lemma bind_ret {A B : Type} (a : A) (k : A -> Py B) : bind (ret a) k = k a.
Proof. unfold bind, ret. destruct (k a); reflexivity. Qed.

(** The grid that [log_grid nx ny] returns. *)
Lemma log_grid_ret (nx ny : nat) :
  (2 <= nx)%nat -> (2 <= ny)%nat ->
  let xs := geomspace Pmin Pmax nx in
  let ys := geomspace Rmin Rmax ny in
  let r_x := exp ((ln Pmax - ln Pmin) / (INR nx - 1)) in
  let r_y := exp ((ln Rmax - ln Rmin) / (INR ny - 1)) in
  log_grid nx ny =
  ret (Grid (map (fun _ => xs) ys)
            (map (fun yj => map (fun _ => yj) xs) ys)
            (map (map (fun p => p * (r_x - 1))) (map (fun _ => xs) ys))
            (map (map (fun r => r * (r_y - 1))) (map (fun yj => map (fun _ => yj) xs) ys))
            xs ys).
Proof.
  intros Hx Hy xs ys r_x r_y.
  assert (HP : 0 < Pmin /\ 0 < Pmax) by (rewrite Pmin_val, Pmax_val; lra).
  assert (HR : 0 < Rmin /\ 0 < Rmax) by (rewrite Rmin_val, Rmax_val; lra).
  unfold log_grid. rewrite GetRange_val. cbv beta iota zeta.
  fold xs ys. unfold meshgrid.
  replace (Z.of_nat nx - 1)%Z with (Z.of_nat (nx - 1)) by lia.
  replace (Z.of_nat ny - 1)%Z with (Z.of_nat (ny - 1)) by lia.
  change 0%Z with (Z.of_nat 0).
  rewrite !getitem_nth by (unfold xs, ys; rewrite length_geomspace; lia).
  rewrite !bind_ret.
  unfold xs, ys.
  rewrite !geomspace_first, !geomspace_last by tauto.
  reflexivity.
Qed.

Lemma INR_pred_pos (n : nat) : (2 <= n)%nat -> 0 < INR n - 1.
Proof.
  intros Hn. replace 1 with (INR 1) by reflexivity.
  rewrite <- minus_INR by lia. apply lt_0_INR. lia.
Qed.

(** Adjacent samples of a geomspace are in the one ratio
    [exp ((ln b - ln a) / (n - 1))]. *)
Lemma geomspace_ratio (a b : R) (n i : nat) :
  0 < a -> 0 < b -> (2 <= n)%nat -> (S i < n)%nat ->
  nth (S i) (geomspace a b n) 0 =
  exp ((ln b - ln a) / (INR n - 1)) * nth i (geomspace a b n) 0.
Proof.
  intros Ha Hb Hn Hi.
  pose proof (INR_pred_pos n Hn) as Hpos.
  rewrite !nth_geomspace by (auto; lia).
  rewrite S_INR.
  replace ((INR i + 1) / (INR n - 1))
    with (INR i / (INR n - 1) + 1 / (INR n - 1)) by (field; lra).
  rewrite Rpower_plus.
  unfold Rpower at 2. rewrite ln_quot by assumption.
  replace (1 / (INR n - 1) * (ln b - ln a)) with ((ln b - ln a) / (INR n - 1))
    by (field; lra).
  ring.
Qed.

Lemma geomspace_bounds (a b : R) (n i : nat) :
  0 < a -> a <= b -> (2 <= n)%nat -> (i < n)%nat ->
  a <= nth i (geomspace a b n) 0 <= b.
Proof.
  intros Ha Hab Hn Hi.
  pose proof (INR_pred_pos n Hn) as Hpos.
  assert (Hb : 0 < b) by lra.
  assert (Hq : 1 <= b / a)
    by (apply Rmult_le_reg_r with a; [assumption|]; field_simplify; lra).
  assert (Hi0 : 0 <= INR i / (INR n - 1))
    by (apply Rmult_le_pos; [apply pos_INR | left; now apply Rinv_0_lt_compat]).
  assert (Hi1 : INR i / (INR n - 1) <= 1).
  { apply Rmult_le_reg_r with (INR n - 1); [assumption|].
    unfold Rdiv. rewrite Rmult_assoc, Rinv_l by lra.
    replace 1 with (INR 1) by reflexivity. rewrite <- minus_INR by lia.
    rewrite Rmult_1_r, Rmult_1_l. apply le_INR. lia. }
  rewrite nth_geomspace by auto.
  pose proof (Rle_Rpower (b / a) 0 _ Hq Hi0) as H0.
  pose proof (Rle_Rpower (b / a) _ 1 Hq Hi1) as H1.
  rewrite Rpower_O in H0 by lra. rewrite Rpower_1 in H1 by lra.
  split.
  - replace a with (a * 1) at 1 by ring. apply Rmult_le_compat_l; lra.
  - replace b with (a * (b / a)) at 2 by (field; lra).
    apply Rmult_le_compat_l; lra.
Qed.

Lemma nth_map_default {A B : Type} (f : A -> B) (l : list A) (j : nat) (d : B) (d' : A) :
  (j < length l)%nat -> nth j (map f l) d = f (nth j l d').
Proof.
  intros Hj. rewrite (nth_indep _ d (f d')) by now rewrite length_map.
  apply map_nth.
Qed.

Lemma shape2_map {A : Type} (f : A -> array1) (l : list A) (cols : nat) :
  (forall a, length (f a) = cols) -> shape2 (map f l) (length l) cols.
Proof.
  intros Hf. split; [apply length_map|].
  apply Forall_forall. intros row Hrow. apply in_map_iff in Hrow.
  destruct Hrow as [a [<- _]]. apply Hf.
Qed.

(** C7.  For every resolution [nx, ny >= 2], [log_grid] returns, without an
    exception, coordinates that are log-spaced between the fixed bounds
    (2, 100) and (1, 3.5), with adjacent samples in the one end-to-end ratio
    [r_x] (resp. [r_y]), and widths [dP = P * (r_x - 1)], [dR = R * (r_y - 1)]
    in every cell, with that same ratio. *)
Theorem log_grid_cell_widths (nx ny : nat) :
  (2 <= nx)%nat -> (2 <= ny)%nat ->
  let r_x := exp ((ln Pmax - ln Pmin) / (INR nx - 1)) in
  let r_y := exp ((ln Rmax - ln Rmin) / (INR ny - 1)) in
  exists G : grid,
    log_grid nx ny = ret G /\
    (Pmin = 2 /\ Pmax = 100 /\ Rmin = 1 /\ Rmax = 3.5) /\
    (length (grid_x G) = nx /\ length (grid_y G) = ny) /\
    (shape2 (grid_P G) ny nx /\ shape2 (grid_R G) ny nx /\
     shape2 (grid_dP G) ny nx /\ shape2 (grid_dR G) ny nx) /\
    (forall i, (i < nx)%nat ->
       nth i (grid_x G) 0 = Pmin * Rpower (Pmax / Pmin) (INR i / (INR nx - 1)) /\
       Pmin <= nth i (grid_x G) 0 <= Pmax) /\
    (forall j, (j < ny)%nat ->
       nth j (grid_y G) 0 = Rmin * Rpower (Rmax / Rmin) (INR j / (INR ny - 1)) /\
       Rmin <= nth j (grid_y G) 0 <= Rmax) /\
    (nth 0 (grid_x G) 0 = Pmin /\ nth (nx - 1) (grid_x G) 0 = Pmax /\
     nth 0 (grid_y G) 0 = Rmin /\ nth (ny - 1) (grid_y G) 0 = Rmax) /\
    (forall i, (S i < nx)%nat -> nth (S i) (grid_x G) 0 = r_x * nth i (grid_x G) 0) /\
    (forall j, (S j < ny)%nat -> nth (S j) (grid_y G) 0 = r_y * nth j (grid_y G) 0) /\
    (forall j i, (j < ny)%nat -> (i < nx)%nat ->
       item2 (grid_P G) j i = nth i (grid_x G) 0 /\
       item2 (grid_R G) j i = nth j (grid_y G) 0 /\
       item2 (grid_dP G) j i = item2 (grid_P G) j i * (r_x - 1) /\
       item2 (grid_dR G) j i = item2 (grid_R G) j i * (r_y - 1)).
Proof.
  intros Hx Hy r_x r_y.
  assert (HP : 0 < Pmin /\ 0 < Pmax /\ Pmin <= Pmax) by (rewrite Pmin_val, Pmax_val; lra).
  assert (HR : 0 < Rmin /\ 0 < Rmax /\ Rmin <= Rmax) by (rewrite Rmin_val, Rmax_val; lra).
  pose proof (length_geomspace Pmin Pmax nx) as Lx.
  pose proof (length_geomspace Rmin Rmax ny) as Ly.
  eexists. split; [apply log_grid_ret; assumption|].
  cbn [grid_P grid_R grid_dP grid_dR grid_x grid_y].
  set (xs := geomspace Pmin Pmax nx) in *.
  set (ys := geomspace Rmin Rmax ny) in *.
  split; [auto using Pmin_val, Pmax_val, Rmin_val, Rmax_val|].
  split; [auto|].
  split.
  { rewrite <- Ly at 1 2 3 4. rewrite !map_map.
    repeat split; try apply length_map;
      apply Forall_forall; intros row Hrow; apply in_map_iff in Hrow;
      destruct Hrow as [a [<- _]]; rewrite ?length_map; assumption. }
  split.
  { intros i Hi. split; [apply nth_geomspace | apply geomspace_bounds]; tauto. }
  split.
  { intros j Hj. split; [apply nth_geomspace | apply geomspace_bounds]; tauto. }
  split.
  { repeat split; (apply geomspace_first || apply geomspace_last); tauto. }
  split.
  { intros i Hi. apply geomspace_ratio; tauto. }
  split.
  { intros j Hj. apply geomspace_ratio; tauto. }
  intros j i Hj Hi. unfold item2. rewrite !map_map.
  repeat rewrite (nth_map_default _ ys j [] 0) by lia.
  rewrite ?map_map.
  repeat rewrite (nth_map_default _ xs i 0 0) by lia.
  auto.
Qed.

Lemma log_grid_cell_widths_witness :
  exists G : grid,
    log_grid 2 2 = ret G /\
    (forall j i, (j < 2)%nat -> (i < 2)%nat ->
       item2 (grid_dP G) j i =
         item2 (grid_P G) j i * (exp ((ln Pmax - ln Pmin) / (INR 2 - 1)) - 1) /\
       item2 (grid_dR G) j i =
         item2 (grid_R G) j i * (exp ((ln Rmax - ln Rmin) / (INR 2 - 1)) - 1)).
Proof.
  destruct (log_grid_cell_widths 2 2) as [G [HG H]]; [lia | lia |].
  exists G. split; [exact HG|].
  intros j i Hj Hi. apply H; assumption.
Defined.

(** ** The default grid and valley *)

Lemma ScaledRadius_default : ScaledRadius 2 1 false = 2.
Proof.
  unfold ScaledRadius, Rpower. rewrite ln_1, Rmult_0_r, exp_0. ring.
Qed.

Lemma Rpower_fourth_root (v : R) : 0 < v -> Rpower (v ^ 4) (1 / 4) = v.
Proof.
  intros Hv. rewrite <- (Rpower_pow 4) by assumption.
  rewrite Rpower_mult. replace (INR 4 * (1 / 4)) with 1 by (simpl; lra).
  now apply Rpower_1.
Qed.

(** X2.  For a bin whose mean stellar mass lies between 1/16 and 9 solar masses,
    [Rsplit = ScaledRadius(M=Mavg)] lies strictly inside the radius range. *)
Lemma ScaledRadius_in_range (M : R) :
  1 / 16 < M < 9 -> Rmin < ScaledRadius 2 M false < Rmax.
Proof.
  intros [Hlo Hhi]. unfold ScaledRadius. cbv zeta. rewrite Rmin_val, Rmax_val.
  assert (H4 : 0 < 1 / 4) by lra.
  pose proof (Rlt_Rpower_l (1 / 16) M (1 / 4) H4 ltac:(lra)) as H1.
  pose proof (Rlt_Rpower_l M (2401 / 256) (1 / 4) H4 ltac:(lra)) as H2.
  replace (1 / 16) with ((1 / 2) ^ 4) in H1 by (simpl; lra).
  replace (2401 / 256) with ((7 / 4) ^ 4) in H2 by (simpl; lra).
  rewrite Rpower_fourth_root in H1, H2 by lra.
  lra.
Qed.


Lemma the_grid_val :
  the_grid =
  Grid (map (fun _ => x) y)
       (map (fun yj => map (fun _ => yj) x) y)
       (map (map (fun p => p * (logspace_x - 1))) (map (fun _ => x) y))
       (map (map (fun r => r * (logspace_y - 1))) (map (fun yj => map (fun _ => yj) x) y))
       (geomspace Pmin Pmax 100) (geomspace Rmin Rmax 100).
Proof.
  unfold x, y, the_grid.
  rewrite (log_grid_ret 100 100) by lia.
  reflexivity.
Qed.

Lemma x_val : x = geomspace Pmin Pmax 100.
Proof. unfold x at 1. now rewrite the_grid_val. Qed.
Lemma y_val : y = geomspace Rmin Rmax 100.
Proof. unfold y at 1. now rewrite the_grid_val. Qed.
Lemma intP_val : intP = map (fun _ => x) y.
Proof. unfold intP. now rewrite the_grid_val. Qed.
Lemma intR_val : intR = map (fun yj => map (fun _ => yj) x) y.
Proof. unfold intR. now rewrite the_grid_val. Qed.
Lemma dP_val : dP = map (fun _ => map (fun p => p * (logspace_x - 1)) x) y.
Proof. unfold dP. rewrite the_grid_val. cbn [grid_dP]. now rewrite map_map. Qed.
Lemma dR_val :
  dR = map (fun yj => map (fun _ => yj * (logspace_y - 1)) x) y.
Proof.
  unfold dR. rewrite the_grid_val. cbn [grid_dR]. rewrite map_map.
  apply map_ext. intros yj. now rewrite map_map.
Qed.

Lemma x_length : length x = 100%nat.
Proof. rewrite x_val. apply length_geomspace. Qed.
Lemma y_length : length y = 100%nat.
Proof. rewrite y_val. apply length_geomspace. Qed.

Lemma x_range (p : R) : In p x -> Pmin <= p <= Pmax.
Proof.
  intros Hp. apply (In_nth _ _ 0) in Hp. destruct Hp as [i [Hi <-]].
  rewrite x_length in Hi. rewrite x_val.
  apply geomspace_bounds; rewrite ?Pmin_val, ?Pmax_val; try lra; lia.
Qed.

Lemma y_range (r : R) : In r y -> Rmin <= r <= Rmax.
Proof.
  intros Hr. apply (In_nth _ _ 0) in Hr. destruct Hr as [j [Hj <-]].
  rewrite y_length in Hj. rewrite y_val.
  apply geomspace_bounds; rewrite ?Rmin_val, ?Rmax_val; try lra; lia.
Qed.

Lemma exp_gt_1 (u : R) : 0 < u -> 1 < exp u.
Proof. intros Hu. rewrite <- exp_0. now apply exp_increasing. Qed.

Lemma logspace_x_gt_1 : 1 < logspace_x.
Proof.
  unfold logspace_x. apply exp_gt_1.
  apply Rdiv_lt_0_compat; [|apply INR_pred_pos; lia].
  apply Rlt_0_minus. apply ln_increasing; rewrite ?Pmin_val, ?Pmax_val; lra.
Qed.

Lemma logspace_y_gt_1 : 1 < logspace_y.
Proof.
  unfold logspace_y. apply exp_gt_1.
  apply Rdiv_lt_0_compat; [|apply INR_pred_pos; lia].
  apply Rlt_0_minus. apply ln_increasing; rewrite ?Rmin_val, ?Rmax_val; lra.
Qed.

Lemma zipWith_map_r {A B C : Type} (f : A -> B -> C) (v : A -> B) (l : list A) :
  zipWith f l (map v l) = map (fun d => f d (v d)) l.
Proof. induction l as [|d l IH]; simpl; congruence. Qed.

(** A property of every element of an array built cell by cell: reduce it
    to one cell [(xi, yj)]. *)
Ltac each_cell xi yj Hxi Hyj :=
  let row := fresh "row" in
  let Hrow := fresh "Hrow" in
  let v := fresh "v" in
  let Hv := fresh "Hv" in
  apply Forall_forall; intros row Hrow;
  apply in_map_iff in Hrow; destruct Hrow as [yj [<- Hyj]];
  apply Forall_forall; intros v Hv;
  apply in_map_iff in Hv; destruct Hv as [xi [<- Hxi]].

(** The integrand [g(intP,intR,fparam) * dP * dR], cell by cell. *)
Lemma g_2d_grid (Rsplit : R) (th : fparam) :
  g_2d Rsplit intP intR th = map (fun yj => map (fun xi => g Rsplit xi yj th) x) y.
Proof.
  rewrite intP_val, intR_val. unfold g_2d. rewrite zipWith_map.
  apply map_ext. intros yj. unfold g_1d. apply zipWith_map_r.
Qed.

Lemma mul2_grid (u v : R -> R -> R) :
  mul2 (map (fun yj => map (fun xi => u xi yj) x) y)
       (map (fun yj => map (fun xi => v xi yj) x) y)
  = map (fun yj => map (fun xi => u xi yj * v xi yj) x) y.
Proof.
  unfold mul2. rewrite zipWith_map. apply map_ext. intros yj.
  unfold mul1. apply zipWith_map.
Qed.

Lemma integrand_grid (Rsplit : R) (th : fparam) :
  mul2 (mul2 (g_2d Rsplit intP intR th) dP) dR =
  map (fun yj => map (fun xi =>
         g Rsplit xi yj th * (xi * (logspace_x - 1)) * (yj * (logspace_y - 1))) x) y.
Proof.
  rewrite g_2d_grid, dP_val, dR_val.
  rewrite (mul2_grid (fun xi yj => g Rsplit xi yj th) (fun xi _ => xi * (logspace_x - 1))).
  now rewrite (mul2_grid _ (fun _ yj => yj * (logspace_y - 1))).
Qed.

(** ** The prior *)

Lemma Finite_zero : Finite 0.0 = Finite 0.
Proof. f_equal. lra. Qed.

Lemma log_prior_value (th : fparam) :
  log_prior th = Finite 0 \/ log_prior th = NegInf.
Proof.
  unfold log_prior. cbv beta iota zeta.
  match goal with |- context [if ?c then _ else _] => destruct c end;
    [left; apply Finite_zero | right; reflexivity].
Qed.

Lemma log_prior_support (th : fparam) :
  log_prior th = Finite 0 <-> prior_support th.
Proof.
  unfold log_prior, prior_support. cbv beta iota zeta.
  match goal with |- context [if ?c then _ else _] => destruct c eqn:E end.
  - repeat match goal with
           | H : _ && _ = true |- _ => apply andb_prop in H; destruct H
           end.
    repeat match goal with
           | H : lt _ _ = true |- _ => apply lt_true in H
           | H : le _ _ = true |- _ => apply le_true in H
           | H : ge _ _ = true |- _ => apply ge_true in H
           end.
    split; [intros _ | intros _; apply Finite_zero].
    repeat split; assumption || lra.
  - split; [discriminate|]. intros H. exfalso.
    destruct H as [[? ?] [[? ?] [[? ?] [[? ?] [[? ?] [[[? ?] ?] [[? ?] [[? ?] [? ?]]]]]]]]].
    rewrite <- not_true_iff_false in E. apply E.
    repeat (apply andb_true_intro; split);
      (apply lt_true || apply le_true || apply ge_true); assumption || lra.
Qed.

Lemma log_prior_outside (th : fparam) :
  ~ prior_support th -> log_prior th = NegInf.
Proof.
  intros H. destruct (log_prior_value th) as [E|E]; [|exact E].
  apply log_prior_support in E. contradiction.
Qed.

(** ** Signs in the shape function *)

Lemma Rdiv_lt_l (a b d : R) : 0 < d -> a < b * d -> a / d < b.
Proof.
  intros Hd H. apply Rmult_lt_reg_r with d; [assumption|].
  unfold Rdiv. rewrite Rmult_assoc, Rinv_l, Rmult_1_r by lra. exact H.
Qed.

Lemma Rdiv_lt_r (a b d : R) : 0 < d -> a * d < b -> a < b / d.
Proof.
  intros Hd H. apply Rmult_lt_reg_r with d; [assumption|].
  unfold Rdiv. rewrite Rmult_assoc, Rinv_l, Rmult_1_r by lra. exact H.
Qed.

Lemma tanh_bounds (u : R) : -1 < tanh u < 1.
Proof.
  unfold tanh, sinh, cosh.
  pose proof (exp_pos u). pose proof (exp_pos (- u)).
  split; [apply Rdiv_lt_r | apply Rdiv_lt_l]; lra.
Qed.

Lemma sx_bounds (P : R) (th : fparam) : 0 < sx P th < 1.
Proof.
  unfold sx.
  pose proof (tanh_bounds ((log10 P - log10 (P_central th)) / log10 (s th))).
  lra.
Qed.

(** The mixing fraction lies strictly between [chi_2] and [chi_1]. *)
Lemma X_between (P : R) (th : fparam) :
  chi_2 th < chi_1 th -> chi_2 th < X P th < chi_1 th.
Proof.
  intros Hchi. unfold X. pose proof (sx_bounds P th). nra.
Qed.

Lemma occ_SEMN_pos (P : R) (th : fparam) : 0 < occ_SEMN P th.
Proof. unfold occ_SEMN, Rpower. apply exp_pos. Qed.

Lemma g2_bounds (Rsplit P : R) (th : fparam) :
  Rmin < Rsplit < Rmax -> 0 < X P th < 1 -> 0 < g2 Rsplit P th < 1.
Proof.
  intros [Hlo Hhi] HX. unfold g2. cbv beta iota zeta.
  assert (Ha : ln Rmin < ln Rsplit)
    by (apply ln_increasing; rewrite ?Rmin_val in *; lra).
  assert (Hb : ln Rsplit < ln Rmax)
    by (apply ln_increasing; rewrite ?Rmin_val in *; lra).
  set (a := ln Rmin) in *. set (b := ln Rsplit) in *. set (c := ln Rmax) in *.
  assert (Hden : 0 < b - a + X P th * (c - b) - X P th * (b - a)) by nra.
  split; [apply Rdiv_lt_r | apply Rdiv_lt_l]; nra.
Qed.

Lemma prior_X_bounds (P : R) (th : fparam) :
  prior_support th -> chi_2 th < X P th < chi_1 th /\ 0 < X P th < 1.
Proof.
  intros H.
  destruct H as [_ [_ [_ [_ [_ [[[? ?] ?] [[? ?] _]]]]]]].
  assert (Hb : chi_2 th < X P th < chi_1 th) by (apply X_between; lra).
  split; [exact Hb | lra].
Qed.

(** Under the prior, with the valley inside the radius range, [g] is
    positive wherever the radius is. *)
Lemma g_pos (Rsplit P Rp : R) (th : fparam) :
  prior_support th -> Rmin < Rsplit < Rmax -> 0 < Rp ->
  0 < g Rsplit P Rp th.
Proof.
  intros Hth HR HRp. unfold g. cbv zeta.
  destruct (prior_X_bounds P th Hth) as [_ HX].
  pose proof (g2_bounds Rsplit P th HR HX) as Hg2.
  pose proof (occ_SEMN_pos P th) as Hocc.
  apply Rmult_lt_0_compat; [|assumption].
  apply Rdiv_lt_0_compat; [|assumption].
  unfold where_. destruct (lt Rp Rsplit); lra.
Qed.

Lemma sum_pos (a : array1) :
  a <> [] -> Forall (fun v => 0 < v) a -> 0 < sum a.
Proof.
  intros Hne Ha. induction Ha as [|v a Hv Ha IH]; [congruence|].
  simpl. destruct a as [|w a]; [simpl; lra|].
  assert (0 < sum (w :: a)) by (apply IH; discriminate). lra.
Qed.

Lemma sum_nonneg (a : array1) : Forall (fun v => 0 <= v) a -> 0 <= sum a.
Proof. intros Ha. induction Ha as [|v a Hv Ha IH]; simpl; lra. Qed.

Lemma x_nonempty : x <> [].
Proof. intros E. pose proof x_length as H. rewrite E in H. discriminate. Qed.
Lemma y_nonempty : y <> [].
Proof. intros E. pose proof y_length as H. rewrite E in H. discriminate. Qed.

(** A grid sum of cells that are all positive is positive. *)
Lemma grid_sum_pos (u : R -> R -> R) :
  (forall xi yj, In xi x -> In yj y -> 0 < u xi yj) ->
  0 < sum2 (map (fun yj => map (fun xi => u xi yj) x) y).
Proof.
  intros Hu. unfold sum2. apply sum_pos.
  - pose proof y_nonempty. destruct y; [congruence | discriminate].
  - rewrite map_map. apply Forall_forall. intros v Hv.
    apply in_map_iff in Hv. destruct Hv as [yj [<- Hyj]].
    apply sum_pos.
    + pose proof x_nonempty. destruct x; [congruence | discriminate].
    + apply Forall_forall. intros w Hw.
      apply in_map_iff in Hw. destruct Hw as [xi [<- Hxi]]. auto.
Qed.

Lemma grid_sum_nonneg (u : R -> R -> R) :
  (forall xi yj, In xi x -> In yj y -> 0 <= u xi yj) ->
  0 <= sum2 (map (fun yj => map (fun xi => u xi yj) x) y).
Proof.
  intros Hu. unfold sum2. apply sum_nonneg.
  rewrite map_map. apply Forall_forall. intros v Hv.
  apply in_map_iff in Hv. destruct Hv as [yj [<- Hyj]].
  apply sum_nonneg. apply Forall_forall. intros w Hw.
  apply in_map_iff in Hw. destruct Hw as [xi [<- Hxi]]. auto.
Qed.

Lemma x_pos (xi : R) : In xi x -> 0 < xi.
Proof. intros H. apply x_range in H. rewrite Pmin_val in H. lra. Qed.
Lemma y_pos (yj : R) : In yj y -> 0 < yj.
Proof. intros H. apply y_range in H. rewrite Rmin_val in H. lra. Qed.

(** Every theta the prior accepts has a positive grid sum. *)
Lemma prior_grid_sum_pos (Rsplit : R) (th : fparam) :
  prior_support th -> Rmin < Rsplit < Rmax ->
  0 < sum2 (mul2 (mul2 (g_2d Rsplit intP intR th) dP) dR).
Proof.
  intros Hth HR. rewrite integrand_grid.
  apply grid_sum_pos. intros xi yj Hxi Hyj.
  pose proof (x_pos xi Hxi). pose proof (y_pos yj Hyj).
  pose proof logspace_x_gt_1. pose proof logspace_y_gt_1.
  pose proof (g_pos Rsplit xi yj th Hth HR ltac:(assumption)) as Hg.
  apply Rmult_lt_0_compat; [apply Rmult_lt_0_compat; [exact Hg|] |];
    apply Rmult_lt_0_compat; lra.
Qed.

Lemma log10_le (a b : R) : 0 < a -> a <= b -> log10 a <= log10 b.
Proof.
  intros Ha Hab. unfold log10. pose proof ln_10_pos as H10.
  apply Rmult_le_compat_r; [left; now apply Rinv_0_lt_compat|].
  destruct Hab as [Hlt | ->]; [left; now apply ln_increasing | right; reflexivity].
Qed.

Lemma log10_mult (a b : R) : 0 < a -> 0 < b -> log10 (a * b) = log10 a + log10 b.
Proof.
  intros Ha Hb. unfold log10. rewrite ln_mult by assumption.
  pose proof ln_10_pos. field. lra.
Qed.

Lemma interior_point_support : prior_support interior_point.
Proof.
  unfold prior_support, interior_point. cbn [F0 P_break beta_1 beta_2 P_central chi_1 chi_2 s].
  rewrite Pmin_val, Pmax_val.
  repeat split; try lra.
  - apply Rplus_le_reg_r with (log10 2).
    rewrite <- log10_mult by lra.
    replace (log10 20 - log10 2 + log10 2) with (log10 20) by ring.
    apply log10_le; lra.
  - apply Rle_ge. rewrite <- log10_mult by lra. apply log10_le; lra.
Qed.

Lemma log_prior_interior : log_prior interior_point = Finite 0.
Proof. apply log_prior_support, interior_point_support. Qed.

Lemma log_prior_F0_10 : log_prior (with_F0 10 interior_point) = NegInf.
Proof.
  apply log_prior_outside. unfold prior_support, with_F0. cbn [F0].
  intros [[_ H] _]. lra.
Qed.

(** C2.  [log_prior] returns 0 exactly on the listed support and [-inf]
    everywhere else; it is 0 at (1,10,1,-1,20,0.8,0.2,2) and [-inf] when
    [F0 = 10] there. *)
Theorem log_prior_characterisation :
  (forall th : fparam,
     (log_prior th = Finite 0 <-> prior_support th) /\
     (log_prior th <> Finite 0 <-> log_prior th = NegInf)) /\
  log_prior interior_point = Finite 0 /\
  log_prior (with_F0 10 interior_point) = NegInf.
Proof.
  split; [|split].
  - intros th. split; [apply log_prior_support|].
    destruct (log_prior_value th) as [E|E]; rewrite E;
      split; intros H; congruence.
  - apply log_prior_interior.
  - apply log_prior_F0_10.
Qed.

(** ** The shape function on the grid *)

Lemma item2_grid (u : R -> R -> R) (j i : nat) :
  (j < 100)%nat -> (i < 100)%nat ->
  item2 (map (fun yj => map (fun xi => u xi yj) x) y) j i = u (nth i x 0) (nth j y 0).
Proof.
  intros Hj Hi. unfold item2.
  rewrite (nth_map_default _ y j [] 0) by (rewrite y_length; lia).
  now rewrite (nth_map_default _ x i 0 0) by (rewrite x_length; lia).
Qed.

Lemma shape2_grid (u : R -> R -> R) :
  shape2 (map (fun yj => map (fun xi => u xi yj) x) y) 100 100.
Proof.
  rewrite <- y_length at 1. apply shape2_map.
  intros yj. rewrite length_map. apply x_length.
Qed.

Lemma prior_g_2d_nonneg (Rsplit : R) (th : fparam) :
  prior_support th -> Rmin < Rsplit < Rmax ->
  Forall (Forall (fun v => 0 <= v)) (g_2d Rsplit intP intR th).
Proof.
  intros Hprior HR. rewrite g_2d_grid. each_cell xi yj Hxi Hyj.
  left. apply g_pos; auto using y_pos.
Qed.

(** C5.  For every theta the prior accepts, and with the valley inside the
    radius range, [g] is non-negative at every point of the integration grid:
    the broken power law is positive, the mixing fraction lies strictly
    between [chi_2] and [chi_1], and the split fraction lies in (0, 1). *)
Theorem g_nonneg_on_grid (Rsplit : R) (th : fparam) :
  log_prior th = Finite 0 -> Rmin < Rsplit < Rmax ->
  (0.5 < chi_1 th < 1 /\ 0 < chi_2 th < 0.5 /\ 1 < s th) /\
  shape2 (g_2d Rsplit intP intR th) 100 100 /\
  Forall (Forall (fun v => 0 <= v)) (g_2d Rsplit intP intR th) /\
  (forall j i, (j < 100)%nat -> (i < 100)%nat ->
     let P := item2 intP j i in
     let Rp := item2 intR j i in
     0 < occ_SEMN P th /\
     chi_2 th < X P th < chi_1 th /\
     0 < g2 Rsplit P th < 1 /\
     item2 (g_2d Rsplit intP intR th) j i = g Rsplit P Rp th /\
     0 <= g Rsplit P Rp th).
Proof.
  intros Hprior HR. apply log_prior_support in Hprior.
  split.
  { destruct Hprior as [_ [_ [_ [_ [_ [[[? ?] ?] [[? ?] [[? ?] _]]]]]]]].
    repeat split; lra. }
  split; [rewrite g_2d_grid; apply shape2_grid|].
  split; [now apply prior_g_2d_nonneg|].
  rewrite g_2d_grid.
  - intros j i Hj Hi P Rp. subst P Rp.
    rewrite intP_val, intR_val.
    rewrite (item2_grid (fun xi _ => xi)), (item2_grid (fun _ yj => yj)) by assumption.
    rewrite item2_grid by assumption.
    destruct (prior_X_bounds (nth i x 0) th Hprior) as [HX HX1].
    repeat split; try apply HX.
    + apply occ_SEMN_pos.
    + apply g2_bounds; assumption.
    + apply g2_bounds; assumption.
    + left. apply g_pos; auto. apply y_pos, nth_In. rewrite y_length. lia.
Qed.

Lemma g_nonneg_on_grid_witness :
  Forall (Forall (fun v => 0 <= v)) (g_2d 2 intP intR interior_point).
Proof.
  apply (g_nonneg_on_grid 2 interior_point).
  - apply log_prior_support, interior_point_support.
  - rewrite Rmin_val, Rmax_val. lra.
Defined.

(** ** Normalisation *)

(** C1.  When the grid sum of [g * dP * dR] is positive, the grid sum of
    [Cn * g * dP * dR] is exactly 1 and that of [df * dP * dR] is exactly
    [F0]; the thetas the prior accepts are among these when the valley lies
    inside the radius range. *)
Theorem Cn_normalises (Rsplit : R) (th : fparam) :
  (0 < sum2 (mul2 (mul2 (g_2d Rsplit intP intR th) dP) dR) ->
   sum2 (mul2 (mul2 (smul2 (function_Cn Rsplit th) (g_2d Rsplit intP intR th)) dP) dR) = 1 /\
   sum2 (mul2 (mul2 (df Rsplit intP intR th) dP) dR) = F0 th) /\
  (log_prior th = Finite 0 -> Rmin < Rsplit < Rmax ->
   0 < sum2 (mul2 (mul2 (g_2d Rsplit intP intR th) dP) dR)).
Proof.
  split.
  - intros Hpos. unfold df, function_Cn. cbv zeta.
    rewrite !mul2_smul2, !sum2_smul2.
    set (S := sum2 (mul2 (mul2 (g_2d Rsplit intP intR th) dP) dR)) in *.
    split; field; lra.
  - intros Hprior HR. apply prior_grid_sum_pos; [|assumption].
    now apply log_prior_support.
Qed.

Lemma Cn_normalises_witness :
  sum2 (mul2 (mul2 (smul2 (function_Cn 2 interior_point)
                          (g_2d 2 intP intR interior_point)) dP) dR) = 1 /\
  sum2 (mul2 (mul2 (df 2 intP intR interior_point) dP) dR) = F0 interior_point.
Proof.
  apply (Cn_normalises 2 interior_point).
  apply prior_grid_sum_pos.
  - apply interior_point_support.
  - rewrite Rmin_val, Rmax_val. lra.
Defined.

(** ** The likelihood *)

Lemma zipWith_nth {A : Type} (f : R -> R -> A) (P Rp : array1) :
  length P = length Rp ->
  zipWith f P Rp = map (fun i => f (nth i P 0) (nth i Rp 0)) (seq 0 (length P)).
Proof.
  revert Rp. induction P as [|p P IH]; intros [|r Rp] Hlen; simpl in *;
    try discriminate; [reflexivity|].
  f_equal. rewrite <- seq_shift, map_map. apply IH. congruence.
Qed.

Lemma function_Npl_ok (P Rp : array1) :
  length P = length Rp ->
  function_Npl P Rp = ([f_function_Npl], inr (length P)).
Proof.
  intros H. unfold function_Npl. rewrite H, Nat.eqb_refl. reflexivity.
Qed.

Lemma function_Npl_raises (P Rp : array1) :
  length P <> length Rp ->
  function_Npl P Rp = ([f_function_Npl], inl AssertionError).
Proof.
  intros H. unfold function_Npl.
  destruct (Nat.eqb_spec (length P) (length Rp)); [contradiction | reflexivity].
Qed.

(** What [lnL] does on a well-formed sample: the five calls, and the value. *)
Lemma lnL_ok (Rsplit : R) (comp : array2) (th : fparam) (P Rp : array1) :
  length P = length Rp ->
  lnL Rsplit comp th P Rp =
  ([f_lnL; f_function_Npl; f_function_Nexp; f_function_Cn; f_g],
   inr (- function_Nexp Rsplit comp th
        + INR (length P) * ln (F0 th)
        + INR (length P) * ln (function_Cn Rsplit th)
        + sum (map ln (g_1d Rsplit P Rp th)))).
Proof.
  intros H. unfold lnL. rewrite function_Npl_ok by assumption. reflexivity.
Qed.

Lemma lnL_raises (Rsplit : R) (comp : array2) (th : fparam) (P Rp : array1) :
  length P <> length Rp ->
  lnL Rsplit comp th P Rp = ([f_lnL; f_function_Npl], inl AssertionError).
Proof.
  intros H. unfold lnL. rewrite function_Npl_raises by assumption. reflexivity.
Qed.

(** C4.  On a sample of equally long [P] and [R], [lnL] returns
    [-N_exp + N_pl ln F0 + N_pl ln Cn + sum_i ln g(P_i, R_i)]. *)
Theorem lnL_is_formula (Rsplit : R) (comp : array2) (th : fparam) (P Rp : array1) :
  length P = length Rp ->
  outcome (lnL Rsplit comp th P Rp) = inr (lnL_formula Rsplit comp th P Rp).
Proof.
  intros H. rewrite lnL_ok by assumption. unfold outcome, lnL_formula. cbn [snd].
  do 2 f_equal. unfold g_1d. rewrite zipWith_nth by assumption.
  now rewrite map_map.
Qed.

Lemma lnL_is_formula_witness :
  outcome (lnL 2 uniform_completeness interior_point [3; 5] [1.5; 2.5]) =
  inr (lnL_formula 2 uniform_completeness interior_point [3; 5] [1.5; 2.5]).
Proof.
  apply (lnL_is_formula 2 uniform_completeness interior_point [3; 5] [1.5; 2.5]).
  reflexivity.
Defined.

(** C10.  [lnL] raises the assertion error of [function_Npl] exactly when
    the lengths of [P] and [R] differ, having called nothing but
    [function_Npl]; with equal lengths [function_Npl] returns the common
    length and [lnL] returns a value, also on the empty sample, where the
    sum over the data is 0. *)
Theorem lnL_assertion (Rsplit : R) (comp : array2) (th : fparam) (P Rp : array1) :
  (length P <> length Rp ->
     outcome (function_Npl P Rp) = inl AssertionError /\
     lnL Rsplit comp th P Rp = ([f_lnL; f_function_Npl], inl AssertionError)) /\
  (length P = length Rp ->
     outcome (function_Npl P Rp) = inr (length P) /\
     outcome (function_Npl P Rp) = inr (length Rp) /\
     exists v : R, outcome (lnL Rsplit comp th P Rp) = inr v) /\
  (outcome (function_Npl [] []) = inr 0%nat /\
   outcome (lnL Rsplit comp th [] []) =
     inr (- function_Nexp Rsplit comp th
          + 0 * ln (F0 th) + 0 * ln (function_Cn Rsplit th) + 0)).
Proof.
  split; [|split].
  - intros H. now rewrite function_Npl_raises, lnL_raises.
  - intros H. rewrite function_Npl_ok, lnL_ok by assumption.
    cbn [outcome snd]. rewrite <- H. eauto.
  - split; [reflexivity|]. rewrite lnL_ok by reflexivity. reflexivity.
Qed.

Lemma lnL_assertion_witness :
  (outcome (function_Npl [3; 5] [1.5]) = inl AssertionError /\
   lnL 2 uniform_completeness interior_point [3; 5] [1.5] =
     ([f_lnL; f_function_Npl], inl AssertionError)) /\
  outcome (function_Npl [3; 5] [1.5; 2.5]) = inr 2%nat.
Proof.
  split.
  - apply (lnL_assertion 2 uniform_completeness interior_point [3; 5] [1.5]).
    simpl. lia.
  - apply (lnL_assertion 2 uniform_completeness interior_point [3; 5] [1.5; 2.5]).
    reflexivity.
Defined.

(** ** The posterior *)

(** C3.  When the prior is not finite, [log_posterior] returns [-inf]
    having called [log_prior] and nothing else, whatever the sample; when it
    is finite, it calls [lnL] and returns the prior plus the likelihood (or
    the exception [lnL] raised). *)
Theorem log_posterior_short_circuit
    (Rsplit : R) (comp : array2) (th : fparam) (P Rp : array1) :
  (isfinite (log_prior th) = false ->
     log_posterior Rsplit comp th P Rp = ([f_log_prior], inr NegInf) /\
     ~ In f_lnL (calls (log_posterior Rsplit comp th P Rp))) /\
  (isfinite (log_prior th) = true ->
     calls (log_posterior Rsplit comp th P Rp) =
       f_log_prior :: calls (lnL Rsplit comp th P Rp) /\
     outcome (log_posterior Rsplit comp th P Rp) =
       match outcome (lnL Rsplit comp th P Rp) with
       | inr l => inr (logp_add (log_prior th) l)
       | inl e => inl e
       end).
Proof.
  unfold log_posterior, traced. cbn [enter ret bind app].
  split; intros H; rewrite H; cbn [negb].
  - split; [reflexivity|]. cbn [ret calls fst]. intros [E|[]]. discriminate.
  - destruct (lnL Rsplit comp th P Rp) as [t [e|l]]; cbn [bind ret calls outcome fst snd app];
      rewrite ?app_nil_r; split; reflexivity.
Qed.

Lemma log_posterior_short_circuit_witness :
  log_posterior 2 uniform_completeness (with_F0 10 interior_point) [3; 5] [1.5] =
    ([f_log_prior], inr NegInf) /\
  calls (log_posterior 2 uniform_completeness interior_point [3; 5] [1.5; 2.5]) =
    f_log_prior :: calls (lnL 2 uniform_completeness interior_point [3; 5] [1.5; 2.5]).
Proof.
  split.
  - apply (log_posterior_short_circuit 2 uniform_completeness
             (with_F0 10 interior_point) [3; 5] [1.5]).
    now rewrite log_prior_F0_10.
  - apply (log_posterior_short_circuit 2 uniform_completeness
             interior_point [3; 5] [1.5; 2.5]).
    now rewrite log_prior_interior.
Defined.

(** ** The expected number of detections *)

Lemma zipWith_ext {A B C : Type} (f f' : A -> B -> C) (l : list A) (m : list B) :
  (forall a b, f a b = f' a b) -> zipWith f l m = zipWith f' l m.
Proof.
  intros H. revert m. induction l as [|a l IH]; intros [|b m]; simpl; auto.
  now rewrite H, IH.
Qed.

(** [g] does not read [F0]. *)
Lemma g_ignores_F0 (Rsplit P Rp : R) (th th' : fparam) :
  P_break th = P_break th' -> beta_1 th = beta_1 th' -> beta_2 th = beta_2 th' ->
  P_central th = P_central th' -> chi_1 th = chi_1 th' -> chi_2 th = chi_2 th' ->
  s th = s th' ->
  g Rsplit P Rp th = g Rsplit P Rp th'.
Proof.
  intros. unfold g, g2, X, sx, occ_SEMN. congruence.
Qed.

Lemma g_2d_ignores_F0 (Rsplit : R) (P Rp : array2) (th th' : fparam) :
  P_break th = P_break th' -> beta_1 th = beta_1 th' -> beta_2 th = beta_2 th' ->
  P_central th = P_central th' -> chi_1 th = chi_1 th' -> chi_2 th = chi_2 th' ->
  s th = s th' ->
  g_2d Rsplit P Rp th = g_2d Rsplit P Rp th'.
Proof.
  intros. unfold g_2d, g_1d. apply zipWith_ext. intros ps rs.
  apply zipWith_ext. intros p r. now apply g_ignores_F0.
Qed.

Lemma function_Cn_ignores_F0 (Rsplit : R) (th th' : fparam) :
  P_break th = P_break th' -> beta_1 th = beta_1 th' -> beta_2 th = beta_2 th' ->
  P_central th = P_central th' -> chi_1 th = chi_1 th' -> chi_2 th = chi_2 th' ->
  s th = s th' ->
  function_Cn Rsplit th = function_Cn Rsplit th'.
Proof.
  intros. unfold function_Cn.
  now rewrite (g_2d_ignores_F0 Rsplit intP intR th th').
Qed.

Lemma mul1_nonneg (a b : array1) :
  Forall (fun v => 0 <= v) a -> Forall (fun v => 0 <= v) b ->
  Forall (fun v => 0 <= v) (mul1 a b).
Proof.
  intros Ha. revert b. induction Ha as [|v a Hv Ha IH]; intros b Hb; [constructor|].
  destruct Hb as [|w b Hw Hb]; [constructor|].
  unfold mul1 in *. simpl. constructor; [now apply Rmult_le_pos | now apply IH].
Qed.

Lemma mul2_nonneg (a b : array2) :
  Forall (Forall (fun v => 0 <= v)) a -> Forall (Forall (fun v => 0 <= v)) b ->
  Forall (Forall (fun v => 0 <= v)) (mul2 a b).
Proof.
  intros Ha. revert b. induction Ha as [|r a Hr Ha IH]; intros b Hb; [constructor|].
  destruct Hb as [|q b Hq Hb]; [constructor|].
  unfold mul2 in *. simpl. constructor; [now apply mul1_nonneg | now apply IH].
Qed.

Lemma sum2_nonneg (a : array2) :
  Forall (Forall (fun v => 0 <= v)) a -> 0 <= sum2 a.
Proof.
  intros Ha. unfold sum2. apply sum_nonneg.
  induction Ha as [|r a Hr Ha IH]; simpl; constructor; auto using sum_nonneg.
Qed.

Lemma dP_nonneg : Forall (Forall (fun v => 0 <= v)) dP.
Proof.
  rewrite dP_val. each_cell xi yj Hxi Hyj.
  pose proof (x_pos xi Hxi). pose proof logspace_x_gt_1.
  apply Rmult_le_pos; lra.
Qed.

Lemma dR_nonneg : Forall (Forall (fun v => 0 <= v)) dR.
Proof.
  rewrite dR_val. each_cell xi yj Hxi Hyj.
  pose proof (y_pos yj Hyj). pose proof logspace_y_gt_1.
  apply Rmult_le_pos; lra.
Qed.

(** [N_exp] is non-decreasing in [F0] between two vectors that agree in the
    other seven components, for a non-negative completeness grid, when [g]
    is non-negative on the integration grid and its grid sum is positive. *)
Lemma Nexp_monotone_of_nonneg_g (Rsplit : R) (comp : array2) (th th' : fparam) :
  P_break th = P_break th' -> beta_1 th = beta_1 th' -> beta_2 th = beta_2 th' ->
  P_central th = P_central th' -> chi_1 th = chi_1 th' -> chi_2 th = chi_2 th' ->
  s th = s th' ->
  shape2 comp 100 100 ->
  Forall (Forall (fun v => 0 <= v)) comp ->
  Forall (Forall (fun v => 0 <= v)) (g_2d Rsplit intP intR th) ->
  0 < sum2 (mul2 (mul2 (g_2d Rsplit intP intR th) dP) dR) ->
  F0 th <= F0 th' ->
  function_Nexp Rsplit comp th <= function_Nexp Rsplit comp th'.
Proof.
  intros E1 E2 E3 E4 E5 E6 E7 _ Hcomp Hg HS HF.
  unfold function_Nexp. cbv zeta.
  rewrite <- (function_Cn_ignores_F0 Rsplit th th') by assumption.
  rewrite <- (g_2d_ignores_F0 Rsplit intP intR th th') by assumption.
  assert (HI : 0 <= sum2 (mul2 (mul2 (mul2 comp (g_2d Rsplit intP intR th)) dP) dR))
    by (apply sum2_nonneg; repeat apply mul2_nonneg;
        auto using dP_nonneg, dR_nonneg).
  assert (HC : 0 < function_Cn Rsplit th)
    by (unfold function_Cn; apply Rdiv_lt_0_compat; lra).
  set (I := sum2 _) in *. set (Cn := function_Cn Rsplit th) in *.
  rewrite !Rmult_assoc. apply Rmult_le_compat_r; [|assumption].
  apply Rmult_le_pos; lra.
Qed.

Lemma interp_on_nonneg (f : R -> R -> R) (xs ys : array1) :
  (forall p r, 0 <= f p r) -> Forall (Forall (fun v => 0 <= v)) (interp_on f xs ys).
Proof.
  intros Hf. unfold interp_on. each_cell xi yj Hxi Hyj. apply Hf.
Qed.

(** On the parameter domain (mixture ratios in (0, 1)) the mixing fraction
    lies in (0, 1), whatever the period. *)
Lemma X_in_unit_interval (P : R) (th : fparam) :
  0 < chi_1 th < 1 -> 0 < chi_2 th < 1 -> 0 < X P th < 1.
Proof.
  intros H1 H2. unfold X. pose proof (sx_bounds P th). nra.
Qed.

Lemma domain_g_pos (Rsplit P Rp : R) (th : fparam) :
  0 < chi_1 th < 1 -> 0 < chi_2 th < 1 -> Rmin < Rsplit < Rmax -> 0 < Rp ->
  0 < g Rsplit P Rp th.
Proof.
  intros H1 H2 HR HRp. unfold g. cbv zeta.
  pose proof (g2_bounds Rsplit P th HR (X_in_unit_interval P th H1 H2)) as Hg2.
  pose proof (occ_SEMN_pos P th) as Hocc.
  apply Rmult_lt_0_compat; [|assumption].
  apply Rdiv_lt_0_compat; [|assumption].
  unfold where_. destruct (lt Rp Rsplit); lra.
Qed.

Lemma domain_g_2d_nonneg (Rsplit : R) (th : fparam) :
  0 < chi_1 th < 1 -> 0 < chi_2 th < 1 -> Rmin < Rsplit < Rmax ->
  Forall (Forall (fun v => 0 <= v)) (g_2d Rsplit intP intR th).
Proof.
  intros H1 H2 HR. rewrite g_2d_grid. each_cell xi yj Hxi Hyj.
  left. apply domain_g_pos; auto using y_pos.
Qed.

Lemma domain_grid_sum_pos (Rsplit : R) (th : fparam) :
  0 < chi_1 th < 1 -> 0 < chi_2 th < 1 -> Rmin < Rsplit < Rmax ->
  0 < sum2 (mul2 (mul2 (g_2d Rsplit intP intR th) dP) dR).
Proof.
  intros H1 H2 HR. rewrite integrand_grid.
  apply grid_sum_pos. intros xi yj Hxi Hyj.
  pose proof (x_pos xi Hxi). pose proof (y_pos yj Hyj).
  pose proof logspace_x_gt_1. pose proof logspace_y_gt_1.
  pose proof (domain_g_pos Rsplit xi yj th H1 H2 HR ltac:(assumption)) as Hg.
  apply Rmult_lt_0_compat; [apply Rmult_lt_0_compat; [exact Hg|] |];
    apply Rmult_lt_0_compat; lra.
Qed.

(** C6.  [N_exp] is non-decreasing in [F0]: for any two parameter vectors of
    the model's domain (positive break and central periods, mixture ratios in
    (0, 1), smoothness above 1) that agree in all components except [F0],
    with the valley inside the radius range and a completeness grid of the
    grid's shape with non-negative entries, the one with the larger [F0] has
    an [N_exp] at least as large. *)
Theorem Nexp_monotone_in_F0 (Rsplit : R) (comp : array2) (th th' : fparam) :
  P_break th = P_break th' -> beta_1 th = beta_1 th' -> beta_2 th = beta_2 th' ->
  P_central th = P_central th' -> chi_1 th = chi_1 th' -> chi_2 th = chi_2 th' ->
  s th = s th' ->
  0 < P_break th -> 0 < P_central th ->
  0 < chi_1 th < 1 -> 0 < chi_2 th < 1 -> 1 < s th ->
  Rmin < Rsplit < Rmax ->
  shape2 comp 100 100 ->
  Forall (Forall (fun v => 0 <= v)) comp ->
  F0 th <= F0 th' ->
  function_Nexp Rsplit comp th <= function_Nexp Rsplit comp th'.
Proof.
  intros E1 E2 E3 E4 E5 E6 E7 _ _ H1 H2 _ HR Hshape Hcomp HF.
  apply Nexp_monotone_of_nonneg_g; try assumption.
  - now apply domain_g_2d_nonneg.
  - now apply domain_grid_sum_pos.
Qed.

Lemma Nexp_monotone_in_F0_witness :
  function_Nexp 2 uniform_completeness interior_point <=
  function_Nexp 2 uniform_completeness (with_F0 2 interior_point).
Proof.
  apply (Nexp_monotone_in_F0 2 uniform_completeness interior_point
           (with_F0 2 interior_point)); try reflexivity; try (simpl; lra).
  - rewrite Rmin_val, Rmax_val. lra.
  - apply shape2_grid.
  - apply interp_on_nonneg. intros; lra.
Defined.

(** *** Outside the parameter domain the expected count can fall as [F0] grows *)

Lemma geomspace_shape (a b : R) (n : nat) :
  (2 <= n)%nat ->
  exists mid, geomspace a b n = a :: mid ++ [b] /\ length mid = (n - 2)%nat.
Proof.
  intros Hn. unfold geomspace.
  destruct (Nat.ltb_spec 0 n); [|lia]. destruct (Nat.ltb_spec 1 n); [|lia].
  pose proof (length_logspace (log10 a) (log10 b) n) as Hl.
  destruct (logspace (log10 a) (log10 b) n) as [|v0 [|v1 t]];
    simpl in Hl; try lia.
  exists (removelast (v1 :: t)). split; [reflexivity|].
  rewrite removelast_firstn_len, length_firstn. simpl. lia.
Qed.

Lemma sum_map_separable (u : R -> R -> R) (A B : R -> R) (xs ys : array1) :
  (forall xi yj, In xi xs -> In yj ys -> u xi yj = A yj * B xi) ->
  sum2 (map (fun yj => map (fun xi => u xi yj) xs) ys) =
  sum (map A ys) * sum (map B xs).
Proof.
  intros Hu. unfold sum2. rewrite map_map.
  induction ys as [|yj ys IH]; simpl; [ring|].
  rewrite IH by (intros; apply Hu; simpl; auto).
  assert (Hrow : sum (map (fun xi => u xi yj) xs) = A yj * sum (map B xs)).
  { assert (Hyj : forall xi, In xi xs -> u xi yj = A yj * B xi)
      by (intros; apply Hu; simpl; auto).
    clear -Hyj. induction xs as [|xi xs IHx]; simpl; [ring|].
    rewrite IHx by (intros; apply Hyj; simpl; auto).
    rewrite Hyj by (simpl; auto). ring. }
  rewrite Hrow. ring.
Qed.

Lemma sum_map_lower (f : R -> R) (m : R) (l : array1) :
  (forall v, m <= f v) -> INR (length l) * m <= sum (map f l).
Proof.
  intros Hf. induction l as [|v l IH]; [simpl; lra|].
  simpl length. rewrite S_INR. simpl map. simpl sum.
  pose proof (Hf v). lra.
Qed.

Lemma sum_map_nonpos (f : R -> R) (l : array1) :
  (forall v, f v <= 0) -> sum (map f l) <= 0.
Proof.
  intros Hf. induction l as [|v l IH]; simpl; [lra|].
  pose proof (Hf v). lra.
Qed.

Lemma X_negative_chi (P : R) : X P negative_chi_point = -0.001.
Proof. unfold X, negative_chi_point. cbn [chi_1 chi_2]. ring. Qed.

Lemma ln_2_lower : 1 / 2 < ln 2.
Proof. pose proof ln_lt_2. lra. Qed.

Lemma ln_Rmax_upper : ln 2 < ln Rmax < 1 + ln 2.
Proof.
  rewrite Rmax_val. split; [apply ln_increasing; lra|].
  rewrite <- (ln_exp 1) at 1. rewrite <- ln_mult by (try apply exp_pos; lra).
  apply ln_increasing; [lra|].
  pose proof (exp_ineq1_le 1). lra.
Qed.

(** At this vector the split fraction is one small negative number. *)
Lemma g2_negative_chi (P : R) :
  g2 2 P negative_chi_point = g2 2 0 negative_chi_point /\
  -1 / 98 < g2 2 P negative_chi_point < 0.
Proof.
  unfold g2. cbv beta iota zeta. rewrite !X_negative_chi.
  split; [reflexivity|].
  rewrite Rmin_val, ln_1.
  pose proof ln_2_lower. pose proof ln_Rmax_upper as [? ?].
  set (b := ln 2) in *. set (c := ln Rmax) in *.
  assert (Hden : 0 < b - 0 + -0.001 * (c - b) - -0.001 * (b - 0)) by lra.
  split; [apply Rdiv_lt_r | apply Rdiv_lt_l]; lra.
Qed.

Lemma gamma_bounds : -1 / 98 < gamma < 0.
Proof. apply (g2_negative_chi 0). Qed.

Lemma cell_negative_chi (xi yj : R) :
  yj <> 0 ->
  g 2 xi yj negative_chi_point * (xi * (logspace_x - 1)) * (yj * (logspace_y - 1)) =
  radius_factor yj * period_factor xi.
Proof.
  intros Hy. unfold g, radius_factor, period_factor. cbv zeta.
  rewrite (proj1 (g2_negative_chi xi)). fold gamma. field. exact Hy.
Qed.

Lemma grid_sum_negative_chi :
  sum2 (mul2 (mul2 (g_2d 2 intP intR negative_chi_point) dP) dR) =
  sum (map radius_factor y) * sum (map period_factor x).
Proof.
  rewrite integrand_grid.
  apply (sum_map_separable
           (fun xi yj => g 2 xi yj negative_chi_point
                         * (xi * (logspace_x - 1)) * (yj * (logspace_y - 1)))).
  intros xi yj _ Hyj. apply cell_negative_chi.
  apply y_pos in Hyj. lra.
Qed.

Lemma completeness_sum_negative_chi :
  sum2 (mul2 (mul2 (mul2 small_planet_completeness
                         (g_2d 2 intP intR negative_chi_point)) dP) dR) =
  sum (map observed_radius_factor y) * sum (map period_factor x).
Proof.
  unfold small_planet_completeness, interp_on.
  rewrite g_2d_grid, dP_val, dR_val.
  rewrite (mul2_grid (fun _ r => if lt r 2 then 1 else 0)
                     (fun xi yj => g 2 xi yj negative_chi_point)).
  rewrite (mul2_grid _ (fun xi _ => xi * (logspace_x - 1))).
  rewrite (mul2_grid _ (fun _ yj => yj * (logspace_y - 1))).
  apply (sum_map_separable
           (fun xi yj => (if lt yj 2 then 1 else 0) * g 2 xi yj negative_chi_point
                         * (xi * (logspace_x - 1)) * (yj * (logspace_y - 1)))).
  intros xi yj _ Hyj. unfold observed_radius_factor.
  rewrite (Rmult_assoc _ (radius_factor yj) (period_factor xi)).
  rewrite <- cell_negative_chi by (apply y_pos in Hyj; lra). ring.
Qed.

Lemma period_sum_pos : 0 < sum (map period_factor x).
Proof.
  apply sum_pos.
  - pose proof x_nonempty. destruct x; [congruence | discriminate].
  - apply Forall_forall. intros v Hv.
    apply in_map_iff in Hv. destruct Hv as [xi [<- Hxi]].
    unfold period_factor.
    pose proof (occ_SEMN_pos xi negative_chi_point). pose proof (x_pos xi Hxi).
    pose proof logspace_x_gt_1.
    apply Rmult_lt_0_compat; [assumption|]. apply Rmult_lt_0_compat; lra.
Qed.

Lemma radius_factor_first : radius_factor Rmin = gamma * (logspace_y - 1).
Proof.
  unfold radius_factor, where_. rewrite Rmin_val.
  destruct (lt 1 2) eqn:E; [reflexivity|]. apply lt_false in E. lra.
Qed.

Lemma radius_factor_last : radius_factor Rmax = (1 - gamma) * (logspace_y - 1).
Proof.
  unfold radius_factor, where_. rewrite Rmax_val.
  destruct (lt 3.5 2) eqn:E; [|reflexivity]. apply lt_true in E. lra.
Qed.

Lemma radius_factor_lower (v : R) : gamma * (logspace_y - 1) <= radius_factor v.
Proof.
  unfold radius_factor, where_. pose proof gamma_bounds. pose proof logspace_y_gt_1.
  set (w := logspace_y - 1) in *. assert (0 < w) by (unfold w; lra).
  destruct (lt v 2); nra.
Qed.

Lemma observed_radius_factor_nonpos (v : R) : observed_radius_factor v <= 0.
Proof.
  unfold observed_radius_factor, radius_factor, where_.
  pose proof gamma_bounds. pose proof logspace_y_gt_1.
  set (w := logspace_y - 1) in *. assert (0 < w) by (unfold w; lra).
  destruct (lt v 2); nra.
Qed.

Lemma radius_sum_pos : 0 < sum (map radius_factor y).
Proof.
  rewrite y_val.
  destruct (geomspace_shape Rmin Rmax 100) as [mid [-> Hmid]]; [lia|].
  simpl map. rewrite map_app. simpl sum. rewrite sum_app. simpl.
  rewrite radius_factor_first, radius_factor_last.
  pose proof (sum_map_lower radius_factor _ mid radius_factor_lower) as Hlow.
  rewrite Hmid in Hlow.
  replace (INR (100 - 2)) with 98 in Hlow by (simpl; lra).
  pose proof gamma_bounds. pose proof logspace_y_gt_1.
  set (w := logspace_y - 1) in *. assert (0 < w) by (unfold w; lra).
  nra.
Qed.

Lemma completeness_radius_sum_neg : sum (map observed_radius_factor y) < 0.
Proof.
  rewrite y_val.
  destruct (geomspace_shape Rmin Rmax 100) as [mid [-> _]]; [lia|].
  simpl map. simpl sum.
  pose proof (sum_map_nonpos observed_radius_factor (mid ++ [Rmax])
                observed_radius_factor_nonpos) as Hrest.
  assert (observed_radius_factor Rmin < 0).
  { unfold observed_radius_factor. rewrite radius_factor_first. rewrite Rmin_val.
    destruct (lt 1 2) eqn:E; [|apply lt_false in E; lra].
    pose proof gamma_bounds. pose proof logspace_y_gt_1.
    set (w := logspace_y - 1) in *. assert (0 < w) by (unfold w; lra).
    nra. }
  lra.
Qed.

(** The mixture ratios of the domain cannot be dropped from the hypotheses
    above: with both of them at -0.001 and a completeness that is 1 below
    two Earth radii and 0 above, doubling [F0] lowers [N_exp], although the
    two vectors agree in the other components and no completeness entry is
    negative. *)
Lemma Nexp_decreasing_outside_prior :
  (P_break negative_chi_point = P_break (with_F0 2 negative_chi_point) /\
   beta_1 negative_chi_point = beta_1 (with_F0 2 negative_chi_point) /\
   beta_2 negative_chi_point = beta_2 (with_F0 2 negative_chi_point) /\
   P_central negative_chi_point = P_central (with_F0 2 negative_chi_point) /\
   chi_1 negative_chi_point = chi_1 (with_F0 2 negative_chi_point) /\
   chi_2 negative_chi_point = chi_2 (with_F0 2 negative_chi_point) /\
   s negative_chi_point = s (with_F0 2 negative_chi_point)) /\
  F0 negative_chi_point < F0 (with_F0 2 negative_chi_point) /\
  shape2 small_planet_completeness 100 100 /\
  Forall (Forall (fun v => 0 <= v)) small_planet_completeness /\
  function_Nexp 2 small_planet_completeness (with_F0 2 negative_chi_point) <
  function_Nexp 2 small_planet_completeness negative_chi_point.
Proof.
  split; [repeat split|].
  split; [simpl; lra|].
  split; [apply shape2_grid|].
  split.
  { apply interp_on_nonneg. intros p r. destruct (lt r 2); lra. }
  unfold function_Nexp. cbv zeta.
  rewrite (function_Cn_ignores_F0 2 (with_F0 2 negative_chi_point) negative_chi_point)
    by reflexivity.
  rewrite (g_2d_ignores_F0 2 intP intR (with_F0 2 negative_chi_point) negative_chi_point)
    by reflexivity.
  unfold function_Cn. cbv zeta.
  rewrite grid_sum_negative_chi, completeness_sum_negative_chi.
  pose proof period_sum_pos. pose proof radius_sum_pos.
  pose proof completeness_radius_sum_neg.
  set (SB := sum (map period_factor x)) in *.
  set (SA := sum (map radius_factor y)) in *.
  set (SO := sum (map observed_radius_factor y)) in *.
  cbn [F0 with_F0 negative_chi_point].
  assert (HC : 0 < 1 / (SA * SB))
    by (apply Rdiv_lt_0_compat; [lra | now apply Rmult_lt_0_compat]).
  assert (HI : SO * SB < 0) by nra.
  set (Cn := 1 / (SA * SB)) in *. set (I := SO * SB) in *.
  nra.
Qed.

(** ** The driver *)

Section DriverFacts.

Variable G : Generator.
Variable E : Emcee.

(** The walkers and the reliability draws of a bin, read off the generator
    as [np.random.seed(42)] leaves it. *)
Lemma run_bin_randomness (num_draws : nat) (initial : list R) (koi : list planet)
    (st : gen_state G) (ent : entropy E) :
  initial_pos G E (run_bin G E num_draws initial koi st ent) =
    map (fun row => zipWith (fun a e => a + 1e-4 * e) initial row)
        (fst (randn G nwalk (length initial) (seed G 42))) /\
  use_array G E (run_bin G E num_draws initial koi st ent) =
    fst (draw_use_array G num_draws (map totalReliability koi)
           (snd (randn G nwalk (length initial) (seed G 42)))).
Proof.
  unfold run_bin, init_walkers.
  destruct (randn G nwalk (length initial) (seed G 42)) as [noise st1].
  cbn [fst snd].
  destruct (draw_use_array G num_draws (map totalReliability koi) st1) as [use st2].
  destruct (draw_loop _ _ _ _ _ _) as [b e]. split; reflexivity.
Qed.

Lemma draw_body_runs (Kepler_P Kepler_R : array1) (use : list (list bool))
    (draw : nat) (b : bin_state E) (p0 : array2) :
  keeps_initial_state E ->
  pos E b = p0 -> Forall (fun c => call_pos c = p0) (runs E b) ->
  let r := draw_body E Kepler_P Kepler_R use draw b in
  pos E (fst r) = p0 /\
  Forall (fun c => call_pos c = p0) (runs E (fst r)) /\
  (length (runs E (fst r)) <= S (length (runs E b)))%nat /\
  (snd r = None -> length (runs E (fst r)) = S (length (runs E b))).
Proof.
  intros Hkeep Hpos Hruns. unfold draw_body.
  destruct (column use draw) as [e|mask]; cbn [fst snd].
  { repeat split; auto. discriminate. }
  pose proof (Hkeep (pos E b) nstep (select Kepler_P mask) (select Kepler_R mask)
                (sampler_entropy E b)) as Hk.
  destruct (run_mcmc E _ _ _ _ _) as [[r p'] ent']. cbn [fst snd] in Hk. subst p'.
  assert (Hnew : Forall (fun c => call_pos c = p0)
            (runs E b ++ [SamplerCall (pos E b) nstep (select Kepler_P mask)
                                      (select Kepler_R mask)])).
  { apply Forall_app. split; [assumption|]. constructor; [exact Hpos | constructor]. }
  destruct r as [e|c]; cbn [fst snd pos runs];
    rewrite length_app; simpl; repeat split; auto; lia.
Qed.

Lemma draw_loop_runs (Kepler_P Kepler_R : array1) (use : list (list bool))
    (draws : list nat) (b : bin_state E) (p0 : array2) :
  keeps_initial_state E ->
  pos E b = p0 -> Forall (fun c => call_pos c = p0) (runs E b) ->
  let r := draw_loop E Kepler_P Kepler_R use draws b in
  pos E (fst r) = p0 /\
  Forall (fun c => call_pos c = p0) (runs E (fst r)) /\
  (length (runs E (fst r)) <= length (runs E b) + length draws)%nat /\
  (snd r = None -> length (runs E (fst r)) = (length (runs E b) + length draws)%nat).
Proof.
  intros Hkeep. revert b.
  induction draws as [|draw draws IH]; intros b Hpos Hruns; cbn [draw_loop].
  { cbn [fst snd length]. repeat split; auto; lia. }
  pose proof (draw_body_runs Kepler_P Kepler_R use draw b p0 Hkeep Hpos Hruns)
    as [Hp [Hr [Hle Heq]]].
  destruct (draw_body E Kepler_P Kepler_R use draw b) as [b' [e|]];
    cbn [fst snd] in *.
  - repeat split; auto; [simpl; lia | discriminate].
  - specialize (Heq eq_refl).
    destruct (IH b' Hp Hr) as [Hp' [Hr' [Hle' Heq']]].
    repeat split; auto; [simpl; lia|].
    intros Hnone. rewrite (Heq' Hnone). simpl. lia.
Qed.

End DriverFacts.

(** C8, amended.  In every pass over a mass bin the generator is seeded with
    42 before the walkers are drawn, and the reliability draws are taken from
    that same generator right after: both the walker ensemble and the array
    of inclusion outcomes are the same in any two runs of the bin, whatever
    state the generator and the sampler were in before. *)
Theorem bin_randomness_fixed_by_seed (G : Generator) (E : Emcee)
    (num_draws : nat) (initial : list R) (koi : list planet)
    (st st' : gen_state G) (ent ent' : entropy E) :
  initial_pos G E (run_bin G E num_draws initial koi st ent) =
    map (fun row => zipWith (fun a e => a + 1e-4 * e) initial row)
        (fst (randn G nwalk (length initial) (seed G 42))) /\
  initial_pos G E (run_bin G E num_draws initial koi st ent) =
    initial_pos G E (run_bin G E num_draws initial koi st' ent') /\
  use_array G E (run_bin G E num_draws initial koi st ent) =
    use_array G E (run_bin G E num_draws initial koi st' ent').
Proof.
  destruct (run_bin_randomness G E num_draws initial koi st ent) as [Hp Hu].
  destruct (run_bin_randomness G E num_draws initial koi st' ent') as [Hp' Hu'].
  rewrite Hp, Hp', Hu, Hu'. repeat split.
Qed.

(** C8 as stated fails: the inclusion outcomes are a function of the
    generator, the number of draws, the initial guess and the catalogue of
    the bin alone; the state in which a run finds the generator and the
    sampler plays no part. *)
Lemma use_array_determined_by_seed :
  exists f : forall G : Generator, nat -> list R -> list planet -> list (list bool),
    forall (G : Generator) (E : Emcee) (num_draws : nat) (initial : list R)
           (koi : list planet) (st : gen_state G) (ent : entropy E),
      use_array G E (run_bin G E num_draws initial koi st ent) = f G num_draws initial koi.
Proof.
  exists (fun G num_draws initial koi =>
            fst (draw_use_array G num_draws (map totalReliability koi)
                   (snd (randn G nwalk (length initial) (seed G 42))))).
  intros. apply run_bin_randomness.
Qed.

(** C9.  The ensemble [pos] is computed once, before the draw loop, from the
    one realisation that follows [np.random.seed(42)]; with a sampler that
    does not write into the array it is started from, every sampler run of
    the bin is started from that ensemble and [pos] still holds it after the
    loop; a loop that raises nothing makes exactly one run per draw. *)
Theorem sampler_runs_start_from_pos (G : Generator) (E : Emcee)
    (num_draws : nat) (initial : list R) (koi : list planet)
    (st : gen_state G) (ent : entropy E) :
  keeps_initial_state E ->
  let r := run_bin G E num_draws initial koi st ent in
  initial_pos G E r =
    map (fun row => zipWith (fun a e => a + 1e-4 * e) initial row)
        (fst (randn G nwalk (length initial) (seed G 42))) /\
  Forall (fun c => call_pos c = initial_pos G E r) (runs E (final G E r)) /\
  pos E (final G E r) = initial_pos G E r /\
  (length (runs E (final G E r)) <= num_draws)%nat /\
  (raised G E r = None -> length (runs E (final G E r)) = num_draws).
Proof.
  intros Hkeep r.
  split; [apply run_bin_randomness|].
  subst r. unfold run_bin.
  destruct (init_walkers G initial st) as [pos0 st1].
  destruct (draw_use_array G num_draws (map totalReliability koi) st1) as [use st2].
  pose proof (draw_loop_runs E (map koi_period koi) (map updated_radius koi) use
                (seq 0 num_draws) (BinState E pos0 ent [] [] []) pos0 Hkeep
                eq_refl (Forall_nil _)) as H.
  cbv zeta in H. rewrite length_seq in H. cbn [runs length Nat.add] in H.
  destruct (draw_loop E _ _ _ _ _) as [b e].
  cbn [fst snd initial_pos final raised] in *. tauto.
Qed.

Lemma sampler_runs_start_from_pos_witness :
  Forall (fun c => call_pos c =
            initial_pos counter_generator copying_sampler
              (run_bin counter_generator copying_sampler 3 [1; 10]
                 [Planet 3 1.5 0.9; Planet 5 2.5 0.5] 7%Z tt))
    (runs copying_sampler
       (final counter_generator copying_sampler
          (run_bin counter_generator copying_sampler 3 [1; 10]
             [Planet 3 1.5 0.9; Planet 5 2.5 0.5] 7%Z tt))).
Proof.
  apply (sampler_runs_start_from_pos counter_generator copying_sampler 3 [1; 10]
           [Planet 3 1.5 0.9; Planet 5 2.5 0.5] 7%Z tt).
  intros p k P Rp e. reflexivity.
Defined.

(** * Further properties of the notebook *)

(** ** The valley scaling *)

(** X1.  Scaling a radius by a positive stellar mass and scaling the result
    back with [inverse=True] returns the radius. *)
Theorem ScaledRadius_round_trip (Rp M : R) :
  0 < M ->
  ScaledRadius (ScaledRadius Rp M false) M true = Rp /\
  ScaledRadius (ScaledRadius Rp M true) M false = Rp.
Proof.
  intros HM. unfold ScaledRadius. cbv zeta.
  assert (H : Rpower M (1 / 4) * Rpower M (- (1 / 4)) = 1).
  { rewrite <- Rpower_plus. replace (1 / 4 + - (1 / 4)) with 0 by lra.
    now apply Rpower_O. }
  split; [rewrite Rmult_assoc | rewrite Rmult_assoc, (Rmult_comm (Rpower M (- _)))];
    rewrite H; ring.
Qed.

Lemma ScaledRadius_round_trip_witness :
  ScaledRadius (ScaledRadius 2 (4 / 5) false) (4 / 5) true = 2.
Proof. apply (ScaledRadius_round_trip 2 (4 / 5)). lra. Defined.

(** X3.  The scaled valley grows with the stellar mass. *)
Theorem ScaledRadius_increasing (Rp M M' : R) :
  0 < Rp -> 0 < M < M' ->
  ScaledRadius Rp M false < ScaledRadius Rp M' false.
Proof.
  intros HR HM. unfold ScaledRadius. cbv zeta.
  apply Rmult_lt_compat_l; [assumption|].
  apply Rlt_Rpower_l; lra.
Qed.

Lemma ScaledRadius_increasing_witness :
  ScaledRadius 2 (1 / 2) false < ScaledRadius 2 1 false.
Proof. apply (ScaledRadius_increasing 2 (1 / 2) 1); lra. Defined.

Lemma ScaledRadius_in_range_witness :
  Rmin < ScaledRadius 2 (1 / 2) false < Rmax.
Proof. apply (ScaledRadius_in_range (1 / 2)). lra. Defined.

(** ** The shape function, term by term *)

Lemma log10_lt (a b : R) : 0 < a -> a < b -> log10 a < log10 b.
Proof.
  intros Ha Hab. unfold log10. pose proof ln_10_pos.
  apply Rmult_lt_compat_r; [now apply Rinv_0_lt_compat | now apply ln_increasing].
Qed.

Lemma log10_le_inv (a b : R) : 0 < a -> 0 < b -> log10 a <= log10 b -> a <= b.
Proof.
  intros Ha Hb H. destruct (Rle_lt_dec a b) as [Hle|Hlt]; [exact Hle|].
  pose proof (log10_lt b a Hb Hlt). lra.
Qed.

Lemma tanh_0 : tanh 0 = 0.
Proof. unfold tanh. rewrite sinh_0. unfold Rdiv. ring. Qed.

Lemma tanh_increasing (u v : R) : u < v -> tanh u < tanh v.
Proof.
  intros Huv. unfold tanh, sinh, cosh. rewrite !exp_Ropp.
  pose proof (exp_pos u) as Hu. pose proof (exp_pos v) as Hv.
  pose proof (exp_increasing u v Huv) as Hlt.
  set (a := exp u) in *. set (b := exp v) in *.
  assert (Ha : 0 < / a) by now apply Rinv_0_lt_compat.
  assert (Hb : 0 < / b) by now apply Rinv_0_lt_compat.
  replace ((a - / a) / 2 / ((a + / a) / 2)) with ((a * a - 1) / (a * a + 1))
    by (field; split; nra).
  replace ((b - / b) / 2 / ((b + / b) / 2)) with ((b * b - 1) / (b * b + 1))
    by (field; split; nra).
  apply Rdiv_lt_l; [nra|].
  replace ((b * b - 1) / (b * b + 1) * (a * a + 1))
    with ((b * b - 1) * (a * a + 1) / (b * b + 1)) by (field; nra).
  apply Rdiv_lt_r; nra.
Qed.

(** X4.  For [chi_2 < chi_1] and [s > 1] the mixing fraction falls as the
    period grows, and at [P_central] it is the mean of [chi_1] and [chi_2]. *)
Theorem X_decreasing (P P' : R) (th : fparam) :
  chi_2 th < chi_1 th -> 1 < s th -> 0 < P_central th -> 0 < P < P' ->
  X P' th < X P th /\
  X (P_central th) th = (chi_1 th + chi_2 th) / 2.
Proof.
  intros Hchi Hs Hc [HP HPP'].
  assert (Hls : 0 < log10 (s th)).
  { unfold log10. apply Rdiv_lt_0_compat; [|apply ln_10_pos].
    rewrite <- ln_1. apply ln_increasing; lra. }
  split.
  - unfold X, sx.
    assert (Ht : tanh ((log10 P - log10 (P_central th)) / log10 (s th)) <
                 tanh ((log10 P' - log10 (P_central th)) / log10 (s th))).
    { apply tanh_increasing. apply Rmult_lt_compat_r; [now apply Rinv_0_lt_compat|].
      pose proof (log10_lt P P' HP HPP'). lra. }
    nra.
  - unfold X, sx.
    replace ((log10 (P_central th) - log10 (P_central th)) / log10 (s th)) with 0
      by (field; lra).
    rewrite tanh_0. lra.
Qed.

Lemma X_decreasing_witness : X 30 interior_point < X 10 interior_point.
Proof.
  apply (X_decreasing 10 30 interior_point); simpl; lra.
Defined.

(** X5.  The broken power law is 1 at the break whichever exponent is
    taken, and with [beta_1 >= 0 >= beta_2] it is at most 1 everywhere. *)
Theorem occ_SEMN_peak (P : R) (th : fparam) :
  0 < P -> 0 < P_break th -> 0 <= beta_1 th -> beta_2 th <= 0 ->
  occ_SEMN (P_break th) th = 1 /\ occ_SEMN P th <= 1.
Proof.
  intros HP Hb H1 H2. unfold occ_SEMN, where_, Rpower. split.
  - replace (P_break th / P_break th) with 1 by (field; lra).
    rewrite ln_1, Rmult_0_r. apply exp_0.
  - rewrite <- exp_0. 
    assert (Hq : 0 < P / P_break th) by now apply Rdiv_lt_0_compat.
    destruct (lt P (P_break th)) eqn:E.
    + apply lt_true in E.
      assert (ln (P / P_break th) < 0).
      { rewrite <- ln_1. apply ln_increasing; [assumption|].
        apply Rdiv_lt_l; lra. }
      destruct (Req_dec_T (beta_1 th) 0) as [->|Hne];
        [rewrite Rmult_0_l; lra | left; apply exp_increasing; nra].
    + apply lt_false in E.
      assert (0 <= ln (P / P_break th)).
      { rewrite <- ln_1.
        destruct (Req_dec_T P (P_break th)) as [->|Hne].
        - replace (P_break th / P_break th) with 1 by (field; lra). lra.
        - left. apply ln_increasing; [lra|]. apply Rdiv_lt_r; lra. }
      destruct (Rle_lt_or_eq_dec _ _ H2) as [Hlt|Heq].
      * destruct (Req_dec_T (ln (P / P_break th)) 0) as [->|Hne];
          [rewrite Rmult_0_r; lra | left; apply exp_increasing; nra].
      * rewrite Heq, Rmult_0_l. lra.
Qed.

Lemma occ_SEMN_peak_witness : occ_SEMN 50 interior_point <= 1.
Proof. apply (occ_SEMN_peak 50 interior_point); simpl; lra. Defined.



(** X7.  What the normalisation of [g2] achieves: integrated over the
    logarithm of the radius, the part of the occurrence below [Rsplit] is the
    fraction [X] of the whole. *)
Theorem g2_is_share_X (Rsplit P : R) (th : fparam) :
  Rmin < Rsplit < Rmax -> 0 < X P th < 1 ->
  let below := g2 Rsplit P th * (ln Rsplit - ln Rmin) in
  let above := (1 - g2 Rsplit P th) * (ln Rmax - ln Rsplit) in
  below / (below + above) = X P th.
Proof.
  intros [Hlo Hhi] HX. unfold g2. cbv beta iota zeta.
  assert (Ha : ln Rmin < ln Rsplit)
    by (apply ln_increasing; rewrite ?Rmin_val in *; lra).
  assert (Hb : ln Rsplit < ln Rmax)
    by (apply ln_increasing; rewrite ?Rmin_val in *; lra).
  set (a := ln Rmin) in *. set (b := ln Rsplit) in *. set (c := ln Rmax) in *.
  set (v := X P th) in *.
  assert (Hden : 0 < b - a + v * (c - b) - v * (b - a)) by nra.
  assert (Hcb : 0 < (c - b) * (b - a)) by nra.
  field. split; [|lra].
  replace (v * (c - b) * (b - a) +
           (b - a + v * (c - b) - v * (b - a) - v * (c - b)) * (c - b))
    with ((c - b) * (b - a)) by ring.
  lra.
Qed.

Lemma g2_is_share_X_witness :
  g2 2 10 interior_point * (ln 2 - ln Rmin) /
  (g2 2 10 interior_point * (ln 2 - ln Rmin) +
   (1 - g2 2 10 interior_point) * (ln Rmax - ln 2)) = X 10 interior_point.
Proof.
  apply (g2_is_share_X 2 10 interior_point).
  - rewrite Rmin_val, Rmax_val. lra.
  - apply prior_X_bounds, interior_point_support.
Defined.

(** ** The prior *)

(** X8.  On the support of the prior the two joint constraints read
    [4 s <= P_central] and [P_central s <= 50]; they confine [s] below
    [sqrt 12.5], so the bound [s < 5] is never the one that binds. *)
Theorem prior_joint_constraints (th : fparam) :
  log_prior th = Finite 0 ->
  4 * s th <= P_central th /\
  P_central th * s th <= 50 /\
  s th * s th <= 12.5 /\
  s th < 3.6.
Proof.
  intros H. apply log_prior_support in H.
  destruct H as [_ [_ [_ [_ [[Hc _] [_ [_ [[Hs _] [Hlo Hhi]]]]]]]]].
  rewrite Pmin_val in Hlo. rewrite Pmax_val in Hhi.
  assert (H1 : 4 * s th <= P_central th).
  { apply log10_le_inv; [lra | lra |].
    rewrite log10_mult by lra. replace (2 * 2) with 4 in Hlo by ring. lra. }
  assert (H2 : P_central th * s th <= 50).
  { apply log10_le_inv; [nra | lra |].
    rewrite log10_mult by lra. replace (0.5 * 100) with 50 in Hhi by lra. lra. }
  repeat split; try assumption; nra.
Qed.

Lemma prior_joint_constraints_witness :
  4 * s interior_point <= P_central interior_point.
Proof. apply (prior_joint_constraints interior_point), log_prior_interior. Defined.

(** ** The likelihood behind the prior *)

(** X9.  For a theta the prior accepts, with the valley inside the radius
    range, every logarithm [lnL] takes has a positive argument: [F0], [Cn]
    and [g] at each observed planet of positive period and radius. *)
Theorem lnL_logs_are_defined (Rsplit : R) (th : fparam) (P Rp : array1) :
  log_prior th = Finite 0 -> Rmin < Rsplit < Rmax ->
  Forall (fun p => 0 < p) P -> Forall (fun r => 0 < r) Rp ->
  0 < F0 th /\
  0 < function_Cn Rsplit th /\
  Forall (fun v => 0 < v) (g_1d Rsplit P Rp th).
Proof.
  intros Hprior HR HP HRp. apply log_prior_support in Hprior.
  split; [destruct Hprior as [[? ?] _]; lra|].
  split.
  - unfold function_Cn. cbv zeta. apply Rdiv_lt_0_compat; [lra|].
    now apply prior_grid_sum_pos.
  - unfold g_1d. revert Rp HRp.
    induction HP as [|p P Hp HP IH]; intros Rp HRp; [constructor|].
    destruct HRp as [|r Rp Hr HRp]; [constructor|].
    simpl. constructor; [now apply g_pos | now apply IH].
Qed.

Lemma lnL_logs_are_defined_witness :
  Forall (fun v => 0 < v) (g_1d 2 [3; 5] [1.5; 2.5] interior_point).
Proof.
  apply (lnL_logs_are_defined 2 interior_point [3; 5] [1.5; 2.5]).
  - apply log_prior_interior.
  - rewrite Rmin_val, Rmax_val. lra.
  - repeat constructor; lra.
  - repeat constructor; lra.
Defined.

(** X10.  Adding one planet [(p, r)] to a sample of equally long arrays moves
    [lnL] by [ln F0 + ln Cn + ln g(p, r)]. *)
Theorem lnL_one_more_planet (Rsplit : R) (comp : array2) (th : fparam)
    (p r : R) (P Rp : array1) :
  length P = length Rp ->
  exists v : R,
    outcome (lnL Rsplit comp th P Rp) = inr v /\
    outcome (lnL Rsplit comp th (p :: P) (r :: Rp)) =
      inr (v + (ln (F0 th) + ln (function_Cn Rsplit th) + ln (g Rsplit p r th))).
Proof.
  intros H. eexists. split; [rewrite lnL_ok by assumption; reflexivity|].
  rewrite lnL_ok by (simpl; congruence).
  cbn [outcome snd]. f_equal.
  change (length (p :: P)) with (S (length P)). rewrite S_INR.
  unfold g_1d. simpl. ring.
Qed.

Lemma lnL_one_more_planet_witness :
  exists v : R,
    outcome (lnL 2 uniform_completeness interior_point [5] [2.5]) = inr v /\
    outcome (lnL 2 uniform_completeness interior_point [3; 5] [1.5; 2.5]) =
      inr (v + (ln (F0 interior_point) + ln (function_Cn 2 interior_point)
                + ln (g 2 3 1.5 interior_point))).
Proof.
  apply (lnL_one_more_planet 2 uniform_completeness interior_point 3 1.5 [5] [2.5]).
  reflexivity.
Defined.

(** X11.  The three outcomes of [log_posterior]: [-inf] for a theta the
    prior rejects, whatever the sample; for a theta it accepts, the assertion
    error when the arrays differ in length, and, when they do not, the finite
    value [0 + lnL] for a sample of positive periods and radii, with the
    valley inside the radius range and a completeness grid of the grid's
    shape.  So arrays of different lengths go unnoticed while theta is
    outside the prior. *)
Theorem log_posterior_outcomes
    (Rsplit : R) (comp : array2) (th : fparam) (P Rp : array1) :
  (log_prior th = NegInf ->
     outcome (log_posterior Rsplit comp th P Rp) = inr NegInf) /\
  (log_prior th = Finite 0 -> length P <> length Rp ->
     outcome (log_posterior Rsplit comp th P Rp) = inl AssertionError) /\
  (log_prior th = Finite 0 -> length P = length Rp ->
   Rmin < Rsplit < Rmax -> shape2 comp 100 100 ->
   Forall (fun p => 0 < p) P -> Forall (fun r => 0 < r) Rp ->
     outcome (log_posterior Rsplit comp th P Rp) =
       inr (Finite (0 + lnL_formula Rsplit comp th P Rp))) /\
  (outcome (log_posterior Rsplit comp th P Rp) = inl AssertionError ->
     log_prior th = Finite 0 /\ length P <> length Rp).
Proof.
  assert (Hrej : log_prior th = NegInf ->
            outcome (log_posterior Rsplit comp th P Rp) = inr NegInf).
  { intros H. unfold log_posterior, traced. cbn [enter ret bind]. now rewrite H. }
  assert (Hbad : log_prior th = Finite 0 -> length P <> length Rp ->
            outcome (log_posterior Rsplit comp th P Rp) = inl AssertionError).
  { intros H Hlen. unfold log_posterior, traced. cbn [enter ret bind].
    rewrite H. cbn [isfinite negb]. now rewrite lnL_raises. }
  assert (Hok : log_prior th = Finite 0 -> length P = length Rp ->
            outcome (log_posterior Rsplit comp th P Rp) =
              inr (Finite (0 + lnL_formula Rsplit comp th P Rp))).
  { intros H Hlen. unfold log_posterior, traced. cbn [enter ret bind].
    rewrite H. cbn [isfinite negb]. rewrite lnL_ok by assumption.
    cbn [bind ret outcome snd logp_add]. do 3 f_equal.
    unfold lnL_formula. cbv zeta. do 1 f_equal.
    unfold g_1d. rewrite zipWith_nth by assumption. now rewrite map_map. }
  split; [exact Hrej|]. split; [exact Hbad|]. split.
  - intros Hprior Hlen _ _ _ _. now apply Hok.
  - intros H. split.
    + destruct (log_prior_value th) as [E|E]; [exact E|].
      rewrite (Hrej E) in H. discriminate.
    + intros Hlen. destruct (log_prior_value th) as [E|E].
      * rewrite (Hok E Hlen) in H. discriminate.
      * rewrite (Hrej E) in H. discriminate.
Qed.

Lemma log_posterior_outcomes_witness :
  outcome (log_posterior 2 uniform_completeness interior_point [3; 5] [1.5]) =
    inl AssertionError /\
  outcome (log_posterior 2 uniform_completeness (with_F0 10 interior_point)
             [3; 5] [1.5]) = inr NegInf /\
  outcome (log_posterior 2 uniform_completeness interior_point [3; 5] [1.5; 2.5]) =
    inr (Finite (0 + lnL_formula 2 uniform_completeness interior_point
                       [3; 5] [1.5; 2.5])).
Proof.
  split; [|split].
  - apply (log_posterior_outcomes 2 uniform_completeness interior_point [3; 5] [1.5]).
    + apply log_prior_interior.
    + simpl. lia.
  - apply (log_posterior_outcomes 2 uniform_completeness
             (with_F0 10 interior_point) [3; 5] [1.5]).
    apply log_prior_F0_10.
  - apply (log_posterior_outcomes 2 uniform_completeness interior_point
             [3; 5] [1.5; 2.5]).
    + apply log_prior_interior.
    + reflexivity.
    + rewrite Rmin_val, Rmax_val. lra.
    + apply shape2_grid.
    + repeat constructor; lra.
    + repeat constructor; lra.
Defined.

(** ** The expected number of detections, continued *)

Lemma sum_map_le {A : Type} (f h : A -> R) (l : list A) :
  (forall a, In a l -> f a <= h a) -> sum (map f l) <= sum (map h l).
Proof.
  intros H. induction l as [|a l IH]; simpl; [lra|].
  pose proof (H a (or_introl eq_refl)).
  assert (sum (map f l) <= sum (map h l)) by (apply IH; intros; apply H; simpl; auto).
  lra.
Qed.

Lemma grid_sum_le (u v : R -> R -> R) :
  (forall xi yj, In xi x -> In yj y -> u xi yj <= v xi yj) ->
  sum2 (map (fun yj => map (fun xi => u xi yj) x) y) <=
  sum2 (map (fun yj => map (fun xi => v xi yj) x) y).
Proof.
  intros H. unfold sum2. rewrite !map_map. apply sum_map_le.
  intros yj Hyj. apply sum_map_le. intros xi Hxi. now apply H.
Qed.

Lemma grid_sum_scale (c : R) (u : R -> R -> R) :
  sum2 (map (fun yj => map (fun xi => c * u xi yj) x) y) =
  c * sum2 (map (fun yj => map (fun xi => u xi yj) x) y).
Proof.
  rewrite <- sum2_smul2. unfold smul2, smul1. rewrite map_map.
  f_equal; try (apply map_ext; intros yj; now rewrite map_map).
Qed.

(** The integrand of [function_Nexp] for a completeness read off an
    interpolant, cell by cell. *)
Lemma Nexp_integrand_grid (Rsplit : R) (f : R -> R -> R) (th : fparam) :
  mul2 (mul2 (mul2 (interp_on f x y) (g_2d Rsplit intP intR th)) dP) dR =
  map (fun yj => map (fun xi =>
         f xi yj * (g Rsplit xi yj th * (xi * (logspace_x - 1))
                    * (yj * (logspace_y - 1)))) x) y.
Proof.
  unfold interp_on. rewrite g_2d_grid, dP_val, dR_val.
  rewrite (mul2_grid f (fun xi yj => g Rsplit xi yj th)).
  rewrite (mul2_grid _ (fun xi _ => xi * (logspace_x - 1))).
  rewrite (mul2_grid _ (fun _ yj => yj * (logspace_y - 1))).
  apply map_ext. intros yj. apply map_ext. intros xi. ring.
Qed.

(** X12.  With the same completeness [c] in every cell (for [c] stars, all
    fully observed) and a positive grid sum, the expected number of
    detections is [F0 * c]. *)
Theorem Nexp_uniform_completeness (Rsplit c : R) (th : fparam) :
  0 < sum2 (mul2 (mul2 (g_2d Rsplit intP intR th) dP) dR) ->
  function_Nexp Rsplit (interp_on (fun _ _ => c) x y) th = F0 th * c.
Proof.
  intros HS. unfold function_Nexp, function_Cn. cbv zeta.
  rewrite Nexp_integrand_grid, grid_sum_scale, <- integrand_grid.
  field. lra.
Qed.

Lemma Nexp_uniform_completeness_witness :
  function_Nexp 2 (interp_on (fun _ _ => 1000) x y) interior_point =
  F0 interior_point * 1000.
Proof.
  apply (Nexp_uniform_completeness 2 1000 interior_point).
  apply prior_grid_sum_pos; [apply interior_point_support|].
  rewrite Rmin_val, Rmax_val. lra.
Defined.

(** X13.  For a theta the prior accepts and a completeness between 0 and
    [cmax] everywhere, the expected number of detections lies between 0 and
    [F0 * cmax]. *)
Theorem Nexp_bounded (Rsplit cmax : R) (f : R -> R -> R) (th : fparam) :
  log_prior th = Finite 0 -> Rmin < Rsplit < Rmax ->
  (forall p r, 0 <= f p r <= cmax) ->
  0 <= function_Nexp Rsplit (interp_on f x y) th <= F0 th * cmax.
Proof.
  intros Hprior HR Hf. apply log_prior_support in Hprior.
  pose proof (prior_grid_sum_pos Rsplit th Hprior HR) as HS.
  assert (HF : 0 < F0 th) by (destruct Hprior as [[? ?] _]; lra).
  unfold function_Nexp, function_Cn. cbv zeta.
  rewrite Nexp_integrand_grid.
  rewrite integrand_grid in HS |- *.
  set (w := fun xi yj => g Rsplit xi yj th * (xi * (logspace_x - 1))
                         * (yj * (logspace_y - 1))) in *.
  assert (Hw : forall xi yj, In xi x -> In yj y -> 0 <= w xi yj).
  { intros xi yj Hxi Hyj. unfold w.
    pose proof (x_pos xi Hxi). pose proof (y_pos yj Hyj).
    pose proof logspace_x_gt_1. pose proof logspace_y_gt_1.
    pose proof (g_pos Rsplit xi yj th Hprior HR ltac:(assumption)) as Hg.
    apply Rmult_le_pos; [apply Rmult_le_pos; [lra|] |]; apply Rmult_le_pos; lra. }
  assert (Hlo : 0 <= sum2 (map (fun yj => map (fun xi => f xi yj * w xi yj) x) y)).
  { apply grid_sum_nonneg. intros xi yj Hxi Hyj.
    apply Rmult_le_pos; [apply Hf | now apply Hw]. }
  assert (Hhi : sum2 (map (fun yj => map (fun xi => f xi yj * w xi yj) x) y) <=
                cmax * sum2 (map (fun yj => map (fun xi => w xi yj) x) y)).
  { rewrite <- grid_sum_scale. apply grid_sum_le. intros xi yj Hxi Hyj.
    apply Rmult_le_compat_r; [now apply Hw | apply Hf]. }
  change (fun yj => map (fun xi => g Rsplit xi yj th * (xi * (logspace_x - 1))
                                   * (yj * (logspace_y - 1))) x)
    with (fun yj => map (fun xi => w xi yj) x) in *.
  set (S := sum2 (map (fun yj => map (fun xi => w xi yj) x) y)) in *.
  set (I := sum2 _) in *.
  assert (HC : 0 < 1 / S) by (apply Rdiv_lt_0_compat; lra).
  split.
  - apply Rmult_le_pos; [apply Rmult_le_pos; lra | assumption].
  - replace (F0 th * cmax) with (F0 th * (1 / S) * (cmax * S)) by (field; lra).
    apply Rmult_le_compat_l; [apply Rmult_le_pos; lra | assumption].
Qed.

Lemma Nexp_bounded_witness :
  0 <= function_Nexp 2 small_planet_completeness interior_point <=
  F0 interior_point * 1.
Proof.
  apply (Nexp_bounded 2 1 (fun _ r => if lt r 2 then 1 else 0) interior_point).
  - apply log_prior_interior.
  - rewrite Rmin_val, Rmax_val. lra.
  - intros p r. destruct (lt r 2); lra.
Defined.

(** X14.  Neither [g] nor [Cn] reads [F0], and [N_exp] is proportional to
    it: at [F0 = v] it is [v] times its value at [F0 = 1]. *)
Theorem Nexp_proportional_to_F0 (Rsplit v : R) (comp : array2) (th : fparam) :
  g_2d Rsplit intP intR (with_F0 v th) = g_2d Rsplit intP intR th /\
  function_Cn Rsplit (with_F0 v th) = function_Cn Rsplit th /\
  function_Nexp Rsplit comp (with_F0 v th) =
    v * function_Nexp Rsplit comp (with_F0 1 th).
Proof.
  split; [now apply g_2d_ignores_F0|].
  split; [now apply function_Cn_ignores_F0|].
  unfold function_Nexp. cbv zeta.
  rewrite (function_Cn_ignores_F0 Rsplit (with_F0 v th) (with_F0 1 th)) by reflexivity.
  rewrite (g_2d_ignores_F0 Rsplit intP intR (with_F0 v th) (with_F0 1 th))
    by reflexivity.
  cbn [F0 with_F0]. ring.
Qed.

(** ** The grid builder, continued *)

(** X15.  A resolution of 0 makes [log_grid] raise an index error: indexing
    the empty coordinate array at [nx-1] (or [ny-1]). *)
Theorem log_grid_zero_resolution (nx ny : nat) :
  log_grid 0 ny = raise IndexError /\
  ((1 <= nx)%nat -> log_grid nx 0 = raise IndexError).
Proof.
  split.
  - unfold log_grid. rewrite GetRange_val. cbv beta iota zeta. reflexivity.
  - intros Hx. unfold log_grid. rewrite GetRange_val. cbv beta iota zeta.
    unfold meshgrid.
    replace (Z.of_nat nx - 1)%Z with (Z.of_nat (nx - 1)) by lia.
    change 0%Z with (Z.of_nat 0) at 1.
    rewrite !getitem_nth by (rewrite length_geomspace; lia).
    rewrite !bind_ret. reflexivity.
Qed.

Lemma log_grid_zero_resolution_witness : log_grid 100 0 = raise IndexError.
Proof. apply (log_grid_zero_resolution 100 0). lia. Defined.

Lemma ratio_widths_sum (r a : R) (l : array1) :
  (forall i, (S i < length (a :: l))%nat ->
     nth (S i) (a :: l) 0 = r * nth i (a :: l) 0) ->
  sum (map (fun v => v * (r - 1)) (a :: l)) = r * nth (length l) (a :: l) 0 - a.
Proof.
  revert a. induction l as [|b l IH]; intros a H; [simpl; ring|].
  assert (Hb : b = r * a) by (apply (H 0%nat); simpl; lia).
  assert (IHb : sum (map (fun v => v * (r - 1)) (b :: l)) =
                r * nth (length l) (b :: l) 0 - b).
  { apply IH. intros i Hi. apply (H (S i)). simpl in *. lia. }
  change (sum (map (fun v => v * (r - 1)) (a :: b :: l)))
    with (a * (r - 1) + sum (map (fun v => v * (r - 1)) (b :: l))).
  rewrite IHb.
  change (nth (length (b :: l)) (a :: b :: l) 0) with (nth (length l) (b :: l) 0).
  rewrite Hb. ring.
Qed.

Lemma geomspace_widths_sum (a b : R) (n : nat) :
  0 < a -> 0 < b -> (2 <= n)%nat ->
  sum (map (fun v => v * (exp ((ln b - ln a) / (INR n - 1)) - 1)) (geomspace a b n)) =
  exp ((ln b - ln a) / (INR n - 1)) * b - a.
Proof.
  intros Ha Hb Hn.
  pose proof (length_geomspace a b n) as Hlen.
  pose proof (geomspace_first a b n Ha Hb Hn) as Hfirst.
  pose proof (geomspace_last a b n Ha Hb Hn) as Hlast.
  pose proof (fun i => geomspace_ratio a b n i Ha Hb Hn) as Hratio.
  destruct (geomspace a b n) as [|v l]; [simpl in Hlen; lia|].
  simpl in Hfirst. subst v.
  rewrite ratio_widths_sum by (intros i Hi; apply Hratio; lia).
  simpl in Hlen. replace (length l) with (n - 1)%nat by lia.
  now rewrite Hlast.
Qed.

(** X16.  For [nx, ny >= 2] the coordinates of [log_grid] increase strictly,
    and the widths of a row tile more than the period range: the [dP] of any
    row add up to [r_x * Pmax - Pmin], and the [dR] of any column to
    [r_y * Rmax - Rmin]. *)
Theorem log_grid_widths_sum (nx ny : nat) :
  (2 <= nx)%nat -> (2 <= ny)%nat ->
  let r_x := exp ((ln Pmax - ln Pmin) / (INR nx - 1)) in
  let r_y := exp ((ln Rmax - ln Rmin) / (INR ny - 1)) in
  exists G : grid,
    log_grid nx ny = ret G /\
    (forall i, (S i < nx)%nat -> nth i (grid_x G) 0 < nth (S i) (grid_x G) 0) /\
    (forall j, (S j < ny)%nat -> nth j (grid_y G) 0 < nth (S j) (grid_y G) 0) /\
    (forall j, (j < ny)%nat ->
       sum (nth j (grid_dP G) []) = r_x * Pmax - Pmin /\
       Pmax - Pmin < sum (nth j (grid_dP G) [])) /\
    (forall i, (i < nx)%nat ->
       sum (map (fun row => nth i row 0) (grid_dR G)) = r_y * Rmax - Rmin /\
       Rmax - Rmin < sum (map (fun row => nth i row 0) (grid_dR G))).
Proof.
  intros Hx Hy r_x r_y.
  assert (HP : 0 < Pmin /\ 0 < Pmax /\ Pmin < Pmax) by (rewrite Pmin_val, Pmax_val; lra).
  assert (HR : 0 < Rmin /\ 0 < Rmax /\ Rmin < Rmax) by (rewrite Rmin_val, Rmax_val; lra).
  assert (Hrx : 1 < r_x).
  { apply exp_gt_1. apply Rdiv_lt_0_compat; [|now apply INR_pred_pos].
    apply Rlt_0_minus, ln_increasing; tauto. }
  assert (Hry : 1 < r_y).
  { apply exp_gt_1. apply Rdiv_lt_0_compat; [|now apply INR_pred_pos].
    apply Rlt_0_minus, ln_increasing; tauto. }
  pose proof (length_geomspace Pmin Pmax nx) as Lx.
  pose proof (length_geomspace Rmin Rmax ny) as Ly.
  eexists. split; [apply log_grid_ret; assumption|].
  cbn [grid_dP grid_dR grid_x grid_y]. fold r_x r_y.
  set (xs := geomspace Pmin Pmax nx) in *.
  set (ys := geomspace Rmin Rmax ny) in *.
  split.
  { intros i Hi. unfold xs. rewrite geomspace_ratio by tauto. fold r_x.
    pose proof (geomspace_bounds Pmin Pmax nx i) as Hb.
    specialize (Hb ltac:(tauto) ltac:(lra) Hx ltac:(lia)). nra. }
  split.
  { intros j Hj. unfold ys. rewrite geomspace_ratio by tauto. fold r_y.
    pose proof (geomspace_bounds Rmin Rmax ny j) as Hb.
    specialize (Hb ltac:(tauto) ltac:(lra) Hy ltac:(lia)). nra. }
  split.
  - intros j Hj. rewrite map_map.
    rewrite (nth_map_default _ ys j [] 0) by lia.
    unfold xs, r_x. rewrite geomspace_widths_sum by tauto. fold r_x.
    split; [reflexivity | nra].
  - intros i Hi. rewrite !map_map.
    assert (Hcol : map (fun yj => nth i (map (fun r => r * (r_y - 1))
                                          (map (fun _ : R => yj) xs)) 0) ys =
                   map (fun v => v * (r_y - 1)) ys).
    { apply map_ext. intros yj. rewrite map_map.
      now rewrite (nth_map_default _ xs i 0 0) by lia. }
    rewrite Hcol. unfold ys, r_y. rewrite geomspace_widths_sum by tauto. fold r_y.
    split; [reflexivity | nra].
Qed.

Lemma log_grid_widths_sum_witness :
  exists G : grid,
    log_grid 100 100 = ret G /\
    (forall j, (j < 100)%nat ->
       sum (nth j (grid_dP G) []) =
       exp ((ln Pmax - ln Pmin) / (INR 100 - 1)) * Pmax - Pmin).
Proof.
  destruct (log_grid_widths_sum 100 100) as [G [HG [_ [_ [H _]]]]]; [lia | lia |].
  exists G. split; [exact HG|]. intros j Hj. now apply H.
Defined.

(** ** The catalogue cuts *)

Lemma float_gt_true (a b : R) : float_gt a b = true <-> a > b.
Proof.
  unfold float_gt. destruct (Rgt_dec a b); split; intros; try discriminate; tauto.
Qed.

Lemma float_ne_true (a b : R) : float_ne a b = true <-> a <> b.
Proof.
  unfold float_ne. destruct (Req_dec_T a b); split; intros; try discriminate; tauto.
Qed.

Lemma select_length_eq (a b : array1) (mask : list bool) :
  length a = length b -> length (select a mask) = length (select b mask).
Proof.
  revert b mask. induction a as [|v a IH]; intros [|w b] [|m mask] H;
    simpl in *; try discriminate; auto.
  destruct m; simpl; auto.
Qed.

Lemma select_length_le (a : array1) (mask : list bool) :
  (length (select a mask) <= length a)%nat.
Proof.
  revert mask. induction a as [|v a IH]; intros [|m mask]; simpl; try lia.
  specialize (IH mask). destruct m; simpl; lia.
Qed.

(** Selecting the three columns with the mask of a row test keeps the rows
    that pass it. *)
Lemma select_rows (test : R * R * R -> bool) (P Rp rel : array1) :
  let mask := map test (rows_of P Rp rel) in
  rows_of (select P mask) (select Rp mask) (select rel mask) =
  filter test (rows_of P Rp rel).
Proof.
  revert Rp rel. induction P as [|p P IH]; intros [|r Rp] [|e rel]; simpl; auto.
  specialize (IH Rp rel). simpl in IH.
  destruct (test (p, r, e)); simpl; now rewrite IH.
Qed.

Lemma rows_of_mask (f : R -> R -> bool) (P Rp rel : array1) :
  length Rp = length rel ->
  zipWith f P Rp = map (fun row => f (fst (fst row)) (snd (fst row))) (rows_of P Rp rel).
Proof.
  revert Rp rel. induction P as [|p P IH]; intros [|r Rp] [|e rel] H;
    simpl in *; try discriminate; auto.
  f_equal. apply IH. congruence.
Qed.

Lemma rows_of_third (h : R -> bool) (P Rp rel : array1) :
  length P = length Rp -> length Rp = length rel ->
  map h rel = map (fun row => h (snd row)) (rows_of P Rp rel).
Proof.
  revert Rp rel. induction P as [|p P IH]; intros [|r Rp] [|e rel] H1 H2;
    simpl in *; try discriminate; auto.
  f_equal. apply IH; congruence.
Qed.

Lemma filter_twice {A : Type} (f h : A -> bool) (l : list A) :
  filter h (filter f l) = filter (fun a => f a && h a) l.
Proof.
  induction l as [|a l IH]; simpl; [reflexivity|].
  destruct (f a); simpl; [destruct (h a)|]; now rewrite IH.
Qed.

(** X17.  The two cuts on the three parallel arrays keep exactly the rows
    with [Pmin < P < Pmax], [Rmin < R < Rmax] and a reliability other than
    0, in their order; the three arrays stay equally long, and every period
    and radius kept is positive. *)
Theorem limit_sample_rows (P Rp rel : array1) :
  length P = length Rp -> length Rp = length rel ->
  let '(P', Rp', rel') := limit_sample P Rp rel in
  rows_of P' Rp' rel' = filter kept (rows_of P Rp rel) /\
  (length P' = length Rp' /\ length Rp' = length rel') /\
  Forall (fun row => let '(p, r, e) := row in
            Pmin < p < Pmax /\ Rmin < r < Rmax /\ e <> 0 /\ 0 < p /\ 0 < r)
         (rows_of P' Rp' rel').
Proof.
  intros H1 H2. unfold limit_sample. cbv zeta.
  set (f := fun p r => lt Pmin p && float_gt Pmax p && lt Rmin r && float_gt Rmax r).
  set (m1 := zipWith f P Rp).
  assert (L1 : length (select P m1) = length (select Rp m1))
    by now apply select_length_eq.
  assert (L2 : length (select Rp m1) = length (select rel m1))
    by now apply select_length_eq.
  set (m2 := map (fun e => float_ne e 0) (select rel m1)).
  assert (Hrows : rows_of (select (select P m1) m2) (select (select Rp m1) m2)
                          (select (select rel m1) m2) =
                  filter kept (rows_of P Rp rel)).
  { unfold m2. rewrite (rows_of_third _ (select P m1) (select Rp m1)) by assumption.
    rewrite (select_rows (fun row => float_ne (snd row) 0)).
    unfold m1. rewrite (rows_of_mask f P Rp rel) by assumption.
    rewrite (select_rows (fun row => f (fst (fst row)) (snd (fst row)))).
    rewrite filter_twice. apply filter_ext. intros [[p r] e]. reflexivity. }
  split; [exact Hrows|].
  split; [split; now apply select_length_eq|].
  rewrite Hrows. apply Forall_forall. intros [[p r] e] Hin.
  apply filter_In in Hin. destruct Hin as [_ Hk]. unfold kept in Hk.
  repeat match goal with
         | H : _ && _ = true |- _ => apply andb_prop in H; destruct H
         end.
  repeat match goal with
         | H : lt _ _ = true |- _ => apply lt_true in H
         | H : float_gt _ _ = true |- _ => apply float_gt_true in H
         | H : float_ne _ _ = true |- _ => apply float_ne_true in H
         end.
  rewrite Pmin_val, Rmin_val in *. repeat split; try assumption; lra.
Qed.

Lemma limit_sample_rows_witness :
  let '(P', Rp', rel') := limit_sample [3; 150; 5] [1.5; 2; 2.5] [0.9; 1; 0] in
  rows_of P' Rp' rel' =
  filter kept (rows_of [3; 150; 5] [1.5; 2; 2.5] [0.9; 1; 0]).
Proof.
  pose proof (limit_sample_rows [3; 150; 5] [1.5; 2; 2.5] [0.9; 1; 0]
                eq_refl eq_refl) as H.
  destruct (limit_sample [3; 150; 5] [1.5; 2; 2.5] [0.9; 1; 0]) as [[P' Rp'] rel'].
  apply H.
Defined.

(** ** Stars of a mass bin *)

Lemma get_mass_range_In (stars : list star) (row : mass_row) (st : star) :
  In st (get_mass_range stars row) <->
  In st stars /\ Lo row <= Mass st < Hi row /\ isdwarf st = true.
Proof.
  unfold get_mass_range. cbv zeta. rewrite filter_In.
  rewrite !andb_true_iff, ge_true, lt_true. intuition lra.
Qed.

(** X18.  Two adjacent mass bins [Lo, Mid) and [Mid, Hi) split the stars of
    [Lo, Hi): no star falls in both, each of their stars is in the wide bin,
    and their sizes add up to its size. *)
Theorem get_mass_range_adjacent_bins (stars : list star) (lo mid hi : R) :
  lo <= mid <= hi ->
  (forall st, In st (get_mass_range stars (MassRow lo mid)) ->
              ~ In st (get_mass_range stars (MassRow mid hi))) /\
  (forall st, In st (get_mass_range stars (MassRow lo mid)) \/
              In st (get_mass_range stars (MassRow mid hi)) <->
              In st (get_mass_range stars (MassRow lo hi))) /\
  length (get_mass_range stars (MassRow lo hi)) =
    (length (get_mass_range stars (MassRow lo mid)) +
     length (get_mass_range stars (MassRow mid hi)))%nat.
Proof.
  intros [Hlm Hmh]. split; [|split].
  - intros st H1 H2. apply get_mass_range_In in H1, H2. simpl in *. lra.
  - intros st. rewrite !get_mass_range_In. simpl.
    destruct (Rlt_le_dec (Mass st) mid); intuition lra.
  - unfold get_mass_range. cbv zeta. simpl Lo. simpl Hi.
    induction stars as [|st stars IH]; [reflexivity|]. simpl.
    unfold ge, lt in *.
    destruct (Rge_dec (Mass st) lo), (Rlt_dec (Mass st) hi),
             (Rlt_dec (Mass st) mid), (Rge_dec (Mass st) mid);
      simpl; try lra; destruct (isdwarf st); simpl; lia.
Qed.

Lemma get_mass_range_adjacent_bins_witness :
  length (get_mass_range [Star 1 0.6 4000 4.7 0.6; Star 2 1.1 6000 4.4 1.2]
            (MassRow 0.5 1.5)) =
  (length (get_mass_range [Star 1 0.6 4000 4.7 0.6; Star 2 1.1 6000 4.4 1.2]
             (MassRow 0.5 1)) +
   length (get_mass_range [Star 1 0.6 4000 4.7 0.6; Star 2 1.1 6000 4.4 1.2]
             (MassRow 1 1.5)))%nat.
Proof.
  apply (get_mass_range_adjacent_bins
           [Star 1 0.6 4000 4.7 0.6; Star 2 1.1 6000 4.4 1.2] 0.5 1 1.5).
  lra.
Defined.

(** X19.  [get_mass_range] repeats the dwarf cut, so on the table that was
    already cut to dwarfs it returns what it returns on the whole table, and
    there it is the mass selection alone; applying it twice changes nothing;
    a bin with [Hi <= Lo] is empty. *)
Theorem get_mass_range_dwarf_cut (stars : list star) (row : mass_row) :
  get_mass_range (dwarf_cut stars) row = get_mass_range stars row /\
  get_mass_range (dwarf_cut stars) row =
    filter (fun st => ge (Mass st) (Lo row) && lt (Mass st) (Hi row))
           (dwarf_cut stars) /\
  get_mass_range (get_mass_range stars row) row = get_mass_range stars row /\
  (Hi row <= Lo row -> get_mass_range stars row = []).
Proof.
  unfold get_mass_range, dwarf_cut. cbv zeta.
  repeat split.
  - rewrite filter_twice. apply filter_ext. intros st.
    destruct (isdwarf st); simpl; [now rewrite andb_true_r | now rewrite andb_false_r].
  - rewrite !filter_twice. apply filter_ext. intros st.
    destruct (isdwarf st); simpl; [now rewrite andb_true_r | reflexivity].
  - rewrite filter_twice. apply filter_ext. intros st.
    now rewrite andb_diag.
  - intros H. induction stars as [|st stars IH]; [reflexivity|]. simpl.
    rewrite IH. unfold ge, lt.
    destruct (Rge_dec (Mass st) (Lo row)), (Rlt_dec (Mass st) (Hi row));
      simpl; try reflexivity. lra.
Qed.

Lemma get_mass_range_dwarf_cut_witness :
  get_mass_range [Star 1 0.6 4000 4.7 0.6] (MassRow 1 1) = [].
Proof.
  apply (get_mass_range_dwarf_cut [Star 1 0.6 4000 4.7 0.6] (MassRow 1 1)).
  simpl. lra.
Defined.

(** ** The planets no draw uses *)

Lemma never_used_spec (row : list bool) :
  never_used row = true <-> Forall (fun b => b = false) row.
Proof.
  unfold never_used. rewrite forallb_forall, Forall_forall.
  split; intros H b Hb; specialize (H b Hb); destruct b; simpl in *; congruence.
Qed.

Lemma combine_seq_In {A : Type} (l : list A) (k i : nat) (a : A) :
  In (i, a) (combine (seq k (length l)) l) <->
  (k <= i)%nat /\ nth_error l (i - k) = Some a.
Proof.
  revert k. induction l as [|b l IH]; intros k; simpl.
  - split; [tauto|]. intros [_ H]. destruct (i - k)%nat; discriminate.
  - rewrite IH. split.
    + intros [H|[H1 H2]].
      * inversion H; subst. rewrite Nat.sub_diag. auto.
      * split; [lia|]. replace (i - k)%nat with (S (i - S k)) by lia. exact H2.
    + intros [H1 H2]. destruct (Nat.eq_dec i k) as [->|Hne].
      * rewrite Nat.sub_diag in H2. simpl in H2. left. congruence.
      * right. split; [lia|].
        replace (i - k)%nat with (S (i - S k)) in H2 by lia. exact H2.
Qed.

Lemma unused_indices_In (rows : list (list bool)) (i : nat) :
  In i (unused_indices rows) <->
  exists row, nth_error rows i = Some row /\ Forall (fun b => b = false) row.
Proof.
  unfold unused_indices. rewrite in_map_iff. split.
  - intros [[j row] [Hj Hin]]. simpl in Hj. subst j.
    apply filter_In in Hin. destruct Hin as [Hin Hnu]. simpl in Hnu.
    apply combine_seq_In in Hin. destruct Hin as [_ Hnth].
    rewrite Nat.sub_0_r in Hnth. exists row. split; [exact Hnth|].
    now apply never_used_spec.
  - intros [row [Hnth Hrow]]. exists (i, row). split; [reflexivity|].
    apply filter_In. split; [|now apply never_used_spec].
    apply combine_seq_In. rewrite Nat.sub_0_r. split; [lia | exact Hnth].
Qed.

Lemma unused_indices_length (rows : list (list bool)) :
  length (unused_indices rows) = length (filter never_used rows).
Proof.
  unfold unused_indices. rewrite length_map.
  generalize 0%nat. induction rows as [|row rows IH]; intros k; [reflexivity|].
  simpl. destruct (never_used row); simpl; now rewrite IH.
Qed.

Lemma column_of_nth (rows : list (list bool)) (k i : nat)
    (bs row : list bool) :
  column_of rows k = Some bs -> nth_error rows i = Some row ->
  exists b, nth_error row k = Some b /\ nth_error bs i = Some b.
Proof.
  revert i bs. induction rows as [|r rows IH]; intros i bs Hc Hn.
  - destruct i; discriminate.
  - simpl in Hc. destruct (nth_error r k) as [b|] eqn:Eb; [|discriminate].
    destruct (column_of rows k) as [bs'|] eqn:Ec; [|discriminate].
    inversion Hc; subst bs. destruct i; simpl in *.
    + inversion Hn; subst. eauto.
    + eapply IH; eauto.
Qed.

Lemma column_of_length (rows : list (list bool)) (k : nat) (bs : list bool) :
  column_of rows k = Some bs -> length bs = length rows.
Proof.
  revert bs. induction rows as [|r rows IH]; intros bs Hc; simpl in Hc.
  - now inversion Hc.
  - destruct (nth_error r k); [|discriminate].
    destruct (column_of rows k) as [bs'|]; [|discriminate].
    inversion Hc. simpl. f_equal. now apply IH.
Qed.

Lemma column_inr (rows : list (list bool)) (k : nat) (bs : list bool) :
  column rows k = inr bs -> column_of rows k = Some bs /\ rows <> [].
Proof.
  unfold column. destruct rows as [|r rows]; [discriminate|].
  destruct (column_of (r :: rows) k); intros H; inversion H; subst.
  split; [reflexivity | discriminate].
Qed.

(** X20.  An index is reported as unused exactly when its row of
    [use_array] holds no True; such a planet has a False inclusion flag in
    the mask of every draw.  With no draw at all, every planet is reported. *)
Theorem unused_indices_spec (rows : list (list bool)) :
  (forall i, In i (unused_indices rows) <->
     exists row, nth_error rows i = Some row /\ Forall (fun b => b = false) row) /\
  (forall i draw mask, In i (unused_indices rows) -> column rows draw = inr mask ->
     nth_error mask i = Some false) /\
  (Forall (fun row => row = []) rows ->
     unused_indices rows = seq 0 (length rows)).
Proof.
  split; [apply unused_indices_In|]. split.
  - intros i draw mask Hi Hc. apply unused_indices_In in Hi.
    destruct Hi as [row [Hn Hrow]]. apply column_inr in Hc. destruct Hc as [Hc _].
    destruct (column_of_nth rows draw i mask row Hc Hn) as [b [Hb Hm]].
    rewrite Hm. f_equal. rewrite Forall_forall in Hrow. apply Hrow.
    eapply nth_error_In; eauto.
  - intros Hall. unfold unused_indices.
    generalize 0%nat. induction Hall as [|row rows Hrow Hall IH]; intros k;
      [reflexivity|].
    subst row. simpl. f_equal. apply IH.
Qed.

(** The planets a mask lets through and the rows without a True never
    exceed the rows. *)
Lemma select_unused_le (rows : list (list bool)) (a : array1) (k : nat)
    (bs : list bool) :
  column_of rows k = Some bs ->
  (length (select a bs) + length (filter never_used rows) <= length rows)%nat.
Proof.
  revert a bs. induction rows as [|r rows IH]; intros a bs Hc; simpl in Hc.
  - inversion Hc. destruct a; simpl; lia.
  - destruct (nth_error r k) as [b|] eqn:Eb; [|discriminate].
    destruct (column_of rows k) as [bs'|] eqn:Ec; [|discriminate].
    inversion Hc; subst bs. destruct a as [|v a].
    + simpl. pose proof (filter_length_le never_used rows).
      destruct (never_used r); simpl; lia.
    + specialize (IH a bs' eq_refl). simpl. destruct b.
      * assert (Hr : never_used r = false).
        { destruct (never_used r) eqn:E; [|reflexivity].
          apply never_used_spec in E. rewrite Forall_forall in E.
          apply nth_error_In in Eb. specialize (E true Eb). discriminate. }
        rewrite Hr. simpl. lia.
      * destruct (never_used r); simpl; lia.
Qed.

(** X21.  In every draw the sample is no larger than the catalogue less the
    planets reported as unused. *)
Theorem sample_size_excludes_unused (rows : list (list bool)) (Kepler_P : array1)
    (draw : nat) (mask : list bool) :
  length Kepler_P = length rows -> column rows draw = inr mask ->
  (length (select Kepler_P mask) + length (unused_indices rows)
   <= length Kepler_P)%nat.
Proof.
  intros Hlen Hc. apply column_inr in Hc. destruct Hc as [Hc _].
  rewrite unused_indices_length, Hlen. now apply (select_unused_le rows Kepler_P draw).
Qed.

Lemma sample_size_excludes_unused_witness :
  (length (select [3%R; 5%R] [true; false])
   + length (unused_indices [[true; false]; [false; false]])
   <= length [3%R; 5%R])%nat.
Proof.
  apply (sample_size_excludes_unused [[true; false]; [false; false]] [3; 5] 0
           [true; false]); reflexivity.
Defined.

Lemma unused_indices_spec_witness : unused_indices [[]; []] = seq 0 2.
Proof. apply (unused_indices_spec [[]; []]). repeat constructor. Defined.

(** ** The draw loop, continued *)

Section DrawLoopFacts.

Variable E : Emcee.
Variables Kepler_P Kepler_R : array1.
Variable use : list (list bool).
Hypothesis same_length : length Kepler_P = length Kepler_R.

Lemma draw_body_tracked (draw : nat) (b : bin_state E) :
  well_tracked E Kepler_P b ->
  let r := draw_body E Kepler_P Kepler_R use draw b in
  well_tracked E Kepler_P (fst r) /\
  ((tracker E (fst r) = tracker E b /\ runs E (fst r) = runs E b /\
    chains E (fst r) = chains E b /\ snd r <> None) \/
   (map fst (tracker E (fst r)) = map fst (tracker E b) ++ [draw] /\
    length (runs E (fst r)) = S (length (runs E b)) /\
    (snd r = None -> length (chains E (fst r)) = S (length (chains E b))))).
Proof.
  intros [Ht Hr]. unfold draw_body.
  destruct (column use draw) as [e|mask]; cbn [fst snd].
  { split; [split; assumption|]. left. repeat split. discriminate. }
  destruct (run_mcmc E _ _ _ _ _) as [[r p'] ent'].
  assert (Hw : forall cs,
    well_tracked E Kepler_P (BinState E p' ent'
      (tracker E b ++ [(draw, length (select Kepler_P mask))]) cs
      (runs E b ++ [SamplerCall (pos E b) nstep (select Kepler_P mask)
                                (select Kepler_R mask)]))).
  { intros cs. split; cbn [tracker runs].
    - rewrite !map_app, Ht. reflexivity.
    - apply Forall_app. split; [assumption|]. constructor; [|constructor].
      cbn [call_P call_R call_nstep].
      split; [now apply select_length_eq|].
      split; [apply select_length_le | reflexivity]. }
  destruct r as [e|c]; cbn [fst snd]; (split; [apply Hw|]); right;
    cbn [tracker runs chains]; rewrite map_app, !length_app; simpl;
    repeat split; try lia; discriminate.
Qed.

Lemma draw_loop_tracked (draws : list nat) (b : bin_state E) :
  well_tracked E Kepler_P b ->
  let r := draw_loop E Kepler_P Kepler_R use draws b in
  well_tracked E Kepler_P (fst r) /\
  exists k, (k <= length draws)%nat /\
    map fst (tracker E (fst r)) = map fst (tracker E b) ++ firstn k draws /\
    length (runs E (fst r)) = (length (runs E b) + k)%nat /\
    (snd r = None -> k = length draws /\
       length (chains E (fst r)) = (length (chains E b) + k)%nat).
Proof.
  revert b. induction draws as [|draw draws IH]; intros b Hb; cbn [draw_loop].
  { split; [assumption|]. exists 0%nat. cbn [fst snd firstn length].
    rewrite app_nil_r. repeat split; lia. }
  pose proof (draw_body_tracked draw b Hb) as [Hb' Hstep].
  destruct (draw_body E Kepler_P Kepler_R use draw b) as [b' [e|]];
    cbn [fst snd] in *.
  - split; [assumption|].
    destruct Hstep as [[Ht [Hr [Hc _]]] | [Ht [Hr _]]].
    + exists 0%nat. rewrite Ht, Hr. cbn [firstn]. rewrite app_nil_r.
      repeat split; try lia; discriminate.
    + exists 1%nat. cbn [firstn length].
      repeat split; try lia; try assumption; discriminate.
  - destruct Hstep as [[_ [_ [_ Hne]]] | [Ht [Hr Hc]]]; [congruence|].
    specialize (Hc eq_refl).
    destruct (IH b' Hb') as [Hfin [k [Hk [Ht' [Hr' Hc']]]]].
    split; [assumption|]. exists (S k). cbn [firstn length].
    rewrite Ht', Ht, <- app_assoc. repeat split; try lia; try reflexivity.
    all: match goal with H : _ = None |- _ => destruct (Hc' H); lia end.
Qed.

(** With a sampler that never raises and a column for every draw, the loop
    runs to its end. *)
Lemma draw_loop_completes (draws : list nat) (b : bin_state E) :
  never_raises E ->
  (forall d, In d draws -> exists mask, column use d = inr mask) ->
  snd (draw_loop E Kepler_P Kepler_R use draws b) = None.
Proof.
  intros Hgood. revert b.
  induction draws as [|draw draws IH]; intros b Hcol; [reflexivity|].
  cbn [draw_loop]. unfold draw_body.
  destruct (Hcol draw (or_introl eq_refl)) as [mask ->].
  destruct (Hgood (pos E b) nstep (select Kepler_P mask) (select Kepler_R mask)
              (sampler_entropy E b)) as [c Hc].
  destruct (run_mcmc E _ _ _ _ _) as [[r p'] ent']. cbn [fst] in Hc. subst r.
  apply IH. intros d Hd. apply Hcol. now right.
Qed.

End DrawLoopFacts.

Lemma firstn_seq_le (k a n : nat) :
  (k <= n)%nat -> firstn k (seq a n) = seq a k.
Proof.
  revert a n. induction k as [|k IH]; intros a [|n] H; simpl; try lia; auto.
  f_equal. apply IH. lia.
Qed.

Lemma draw_use_array_shape (G : Generator) (n : nat) (rels : list R)
    (st : gen_state G) :
  choice_has_size G ->
  length (fst (draw_use_array G n rels st)) = length rels /\
  Forall (fun row => length row = n) (fst (draw_use_array G n rels st)).
Proof.
  intros Hsize. revert st. induction rels as [|rel rels IH]; intros st; simpl.
  - split; [reflexivity | constructor].
  - pose proof (Hsize [true; false] n [rel; 1 - rel] st) as Hrow.
    destruct (choice G [true; false] n [rel; 1 - rel] st) as [row st1].
    specialize (IH st1).
    destruct (draw_use_array G n rels st1) as [rows st2].
    cbn [fst] in *. destruct IH as [IH1 IH2].
    split; [simpl; congruence | constructor; assumption].
Qed.

Lemma column_exists (rows : list (list bool)) (n d : nat) :
  rows <> [] -> Forall (fun row => length row = n) rows -> (d < n)%nat ->
  exists mask, column rows d = inr mask.
Proof.
  intros Hne Hrows Hd.
  assert (Hc : exists bs, column_of rows d = Some bs).
  { clear Hne. induction Hrows as [|row rows Hrow Hrows IH]; simpl; [eauto|].
    destruct IH as [bs ->].
    destruct (nth_error row d) eqn:E; [eauto|].
    apply nth_error_None in E. lia. }
  destruct Hc as [bs Hc]. unfold column.
  destruct rows; [congruence|]. rewrite Hc. eauto.
Qed.

(** X22.  Whatever the generator and the sampler do, after the draw loop the
    tracker lists the draws that reached the sampler, numbered from 0, each
    with the size of the sample of that draw; every sample has as many
    radii as periods (so the assertion of [function_Npl] holds on it), is no
    larger than the catalogue, and was run for [nstep] steps. *)
Theorem run_bin_bookkeeping (G : Generator) (E : Emcee)
    (num_draws : nat) (initial : list R) (koi : list planet)
    (st : gen_state G) (ent : entropy E) :
  let b := final G E (run_bin G E num_draws initial koi st ent) in
  map fst (tracker E b) = seq 0 (length (runs E b)) /\
  map snd (tracker E b) = map (fun c => length (call_P c)) (runs E b) /\
  (length (runs E b) <= num_draws)%nat /\
  Forall (fun c =>
            outcome (function_Npl (call_P c) (call_R c)) = inr (length (call_P c)) /\
            (length (call_P c) <= length koi)%nat /\
            call_nstep c = nstep) (runs E b).
Proof.
  unfold run_bin.
  destruct (init_walkers G initial st) as [pos0 st1].
  destruct (draw_use_array G num_draws (map totalReliability koi) st1) as [use st2].
  assert (Hlen : length (map koi_period koi) = length (map updated_radius koi))
    by now rewrite !length_map.
  assert (H0 : well_tracked E (map koi_period koi) (BinState E pos0 ent [] [] [])).
  { split; [reflexivity | constructor]. }
  pose proof (draw_loop_tracked E (map koi_period koi) (map updated_radius koi)
                use Hlen (seq 0 num_draws) _ H0) as [[Ht Hr] [k [Hk [Hfst [Hruns _]]]]].
  destruct (draw_loop E _ _ _ _ _) as [b e].
  cbn [fst final tracker runs map length app Nat.add] in *.
  rewrite length_seq in Hk. rewrite firstn_seq_le in Hfst by assumption.
  rewrite Hruns.
  repeat split; try assumption; try lia.
  eapply Forall_impl; [|exact Hr]. intros c [Hc1 [Hc2 Hc3]].
  rewrite length_map in Hc2. repeat split; try assumption.
  now rewrite function_Npl_ok.
Qed.

(** X23.  With a generator whose [choice] answers with as many outcomes as
    it is asked for, [use_array] has one row per planet and one column per
    draw; if moreover the catalogue is not empty and the sampler never
    raises, the bin raises nothing and leaves exactly [num_draws] chains,
    runs and tracker lines. *)
Theorem run_bin_completes (G : Generator) (E : Emcee)
    (num_draws : nat) (initial : list R) (koi : list planet)
    (st : gen_state G) (ent : entropy E) :
  choice_has_size G ->
  let r := run_bin G E num_draws initial koi st ent in
  (length (use_array G E r) = length koi /\
   Forall (fun row => length row = num_draws) (use_array G E r)) /\
  (never_raises E -> koi <> [] ->
   raised G E r = None /\
   length (chains E (final G E r)) = num_draws /\
   length (runs E (final G E r)) = num_draws /\
   map fst (tracker E (final G E r)) = seq 0 num_draws).
Proof.
  intros Hsize. unfold run_bin.
  destruct (init_walkers G initial st) as [pos0 st1].
  pose proof (draw_use_array_shape G num_draws (map totalReliability koi) st1 Hsize)
    as [Hrows Hcols].
  destruct (draw_use_array G num_draws (map totalReliability koi) st1) as [use st2].
  cbn [fst] in Hrows, Hcols. rewrite length_map in Hrows.
  assert (Hlen : length (map koi_period koi) = length (map updated_radius koi))
    by now rewrite !length_map.
  assert (H0 : well_tracked E (map koi_period koi) (BinState E pos0 ent [] [] [])).
  { split; [reflexivity | constructor]. }
  pose proof (draw_loop_tracked E (map koi_period koi) (map updated_radius koi)
                use Hlen (seq 0 num_draws) _ H0) as [_ [k [Hk [Hfst [Hruns Hdone]]]]].
  pose proof (draw_loop_completes E (map koi_period koi) (map updated_radius koi)
                use (seq 0 num_draws) (BinState E pos0 ent [] [] [])) as Hcomp.
  destruct (draw_loop E _ _ _ _ _) as [b e].
  cbn [fst snd final raised use_array tracker runs chains map length app Nat.add] in *.
  split; [split; assumption|].
  intros Hgood Hne.
  assert (He : e = None).
  { apply Hcomp; [assumption|]. intros d Hd. apply in_seq in Hd.
    apply (column_exists use num_draws); try assumption; [|lia].
    intros ->. destruct koi; [congruence | discriminate]. }
  destruct (Hdone He) as [Hk' Hch]. rewrite length_seq in Hk'. subst k.
  rewrite firstn_seq_le in Hfst by lia.
  repeat split; congruence.
Qed.

Lemma run_bin_completes_witness :
  raised counter_generator copying_sampler
    (run_bin counter_generator copying_sampler 3 [1; 10]
       [Planet 3 1.5 0.9; Planet 5 2.5 0.5] 7%Z tt) = None /\
  length (chains copying_sampler
            (final counter_generator copying_sampler
               (run_bin counter_generator copying_sampler 3 [1; 10]
                  [Planet 3 1.5 0.9; Planet 5 2.5 0.5] 7%Z tt))) = 3%nat.
Proof.
  assert (Hsize : choice_has_size counter_generator).
  { intros options size p st. simpl. now rewrite length_map, length_seq. }
  destruct (run_bin_completes counter_generator copying_sampler 3 [1; 10]
              [Planet 3 1.5 0.9; Planet 5 2.5 0.5] 7%Z tt Hsize) as [_ H].
  destruct H as [H1 [H2 _]].
  - intros p k P Rp e. exists p. reflexivity.
  - discriminate.
  - split; assumption.
Defined.

(** X24.  On an empty catalogue, the first draw fails with an index error
    (the array of inclusion outcomes has no second axis): no sampler run is
    made, nothing is tracked, and no chain is left. *)
Theorem run_bin_empty_catalogue (G : Generator) (E : Emcee)
    (num_draws : nat) (initial : list R) (st : gen_state G) (ent : entropy E) :
  (1 <= num_draws)%nat ->
  let r := run_bin G E num_draws initial [] st ent in
  raised G E r = Some IndexError /\
  use_array G E r = [] /\
  runs E (final G E r) = [] /\
  tracker E (final G E r) = [] /\
  chains E (final G E r) = [].
Proof.
  intros Hn. unfold run_bin.
  destruct (init_walkers G initial st) as [pos0 st1]. simpl.
  destruct num_draws as [|n]; [lia|]. simpl. repeat split.
Qed.

Lemma run_bin_empty_catalogue_witness :
  raised counter_generator copying_sampler
    (run_bin counter_generator copying_sampler 3 [1; 10] [] 7%Z tt) =
  Some IndexError.
Proof.
  apply (run_bin_empty_catalogue counter_generator copying_sampler 3 [1; 10] 7%Z tt).
  lia.
Defined.
